(** * acdb: command dispatch core and generic utilities

    A shallow embedding of [src/utils.py] and [src/commands_core.py] and the
    properties of the dispatch pipeline, the registry, the help iterator,
    pagination and mention parsing.

    Layout: the data model and the embedded functions come first (strings,
    utilities, effects, commands, registry, dispatch), the theorems follow. *)

From Stdlib Require Import ZArith NArith Ascii String Lia.
From stdpp Require Import base tactics option list gmap.

Open Scope Z_scope.
Open Scope list_scope.

(** ** Python strings

    A Python [str] is a sequence of Unicode code points; it is embedded as a
    list of code points so that slicing, concatenation and [len] are the list
    operations. *)

Abbreviation str := (list N) (only parsing).

(** A literal of the source, written as a Rocq string. *)
Definition py (s : string) : list N :=
  (fun a => N_of_ascii a) <$> list_ascii_of_string s.

(** [sep.join(parts)] *)
Fixpoint join (sep : str) (parts : list str) : str :=
  match parts with
  | [] => []
  | [p] => p
  | p :: ps => p ++ sep ++ join sep ps
  end.

(** The line boundaries of [str.splitlines]: LF, VT, FF, CR, FS, GS, RS, NEL,
    LINE SEPARATOR and PARAGRAPH SEPARATOR; CR LF counts as one boundary. *)
Definition is_linebreak (c : N) : bool :=
  bool_decide (c ∈ [10; 11; 12; 13; 28; 29; 30; 133; 8232; 8233]%N).

(** [s.splitlines(keepends)], with the line read so far in [cur]. *)
Fixpoint splitlines_from (keepends : bool) (cur : str) (s : str) : list str :=
  match s with
  | [] => match cur with [] => [] | _ :: _ => [cur] end
  | c :: rest =>
      if is_linebreak c then
        if (c =? 13)%N then
          match rest with
          | c' :: rest' =>
              if (c' =? 10)%N
              then (if keepends then cur ++ [c; c'] else cur)
                     :: splitlines_from keepends [] rest'
              else (if keepends then cur ++ [c] else cur)
                     :: splitlines_from keepends [] rest
          | [] => [if keepends then cur ++ [c] else cur]
          end
        else (if keepends then cur ++ [c] else cur)
               :: splitlines_from keepends [] rest
      else splitlines_from keepends (cur ++ [c]) rest
  end.

Definition splitlines (keepends : bool) (s : str) : list str :=
  splitlines_from keepends [] s.

(** The characters [str.split()] treats as separators ([str.isspace]). *)
Definition is_space (c : N) : bool :=
  ((9 <=? c) && (c <=? 13) || (28 <=? c) && (c <=? 32)
   || (8192 <=? c) && (c <=? 8202)
   || bool_decide (c ∈ [133; 160; 5760; 8232; 8233; 8239; 8287; 12288]))%N.

(** [s.split()]: maximal runs of non-separators, no empty token. *)
Fixpoint split_from (cur : str) (s : str) : list str :=
  match s with
  | [] => match cur with [] => [] | _ :: _ => [cur] end
  | c :: rest =>
      if is_space c then
        match cur with
        | [] => split_from [] rest
        | _ :: _ => cur :: split_from [] rest
        end
      else split_from (cur ++ [c]) rest
  end.

Definition split (s : str) : list str := split_from [] s.

(** [enumerate(l)] *)
Definition enumerate {A} (l : list A) : list (nat * A) :=
  zip (seq 0 (length l)) l.

(** ** utils.py *)

(** Slices with non-negative bounds: [s[a:b]] and [s[a:]]. *)
Definition slice (s : str) (a b : nat) : str := take (b - a) (drop a s).
Definition slice_from (s : str) (a : nat) : str := drop a s.

(** The local variables of the loop of [paginate]. *)
Record PaginateState := {
  paginated : list str;
  page_index : nat;
  len_count : nat
}.

(** One turn of [for i, line in enumerate(split)]. *)
Definition paginate_step (dump : str) (max_per_page : Z) (nsplit : nat)
    (st : PaginateState) (il : nat * str) : PaginateState :=
  let '(i, line) := il in
  if (Z.of_nat i =? Z.of_nat nsplit - 1) then
    {| paginated := paginated st ++ [slice_from dump (page_index st)];
       page_index := page_index st;
       len_count := len_count st |}
  else if (max_per_page <=? Z.of_nat (len_count st + length line)) then
    {| paginated :=
         paginated st
           ++ [slice dump (page_index st) (page_index st + len_count st)];
       page_index := page_index st + len_count st;
       len_count := length line |}
  else
    {| paginated := paginated st;
       page_index := page_index st;
       len_count := len_count st + length line |}.

Definition paginate (dump : str) (max_per_page : Z) : list str :=
  if (Z.of_nat (length dump) <? max_per_page) then [dump]
  else
    let split := splitlines true dump in
    paginated
      (foldl (paginate_step dump max_per_page (length split))
             {| paginated := []; page_index := 0; len_count := 0 |}
             (enumerate split)).

(** A value returned by [get_user_id_from_mention]: a string or an int. *)
Inductive StrOrInt :=
| PyStr (s : list N)
| PyInt (z : Z).

(** The regular expressions the module uses are sequences of these items:
    a literal character, an optional literal ([c?]) and a capturing group
    around a greedy one-or-more character class ([([...]+)]). *)
Inductive ReItem :=
| ReLit (c : N)
| ReOpt (c : N)
| ReGroupPlus (cls : N -> bool).

(** [take_while cls s]: the longest prefix of [s] inside the class. *)
Fixpoint take_while (cls : N -> bool) (s : str) : str :=
  match s with
  | c :: rest => if cls c then c :: take_while cls rest else []
  | [] => []
  end.

(** A greedy repetition that matched [k] characters retries the rest of the
    pattern with [k], [k - 1], ..., [1] of them. *)
Fixpoint give_back {A} (try : nat -> option A) (k : nat) : option A :=
  match k with
  | O => None
  | S k' =>
      match try k with
      | Some r => Some r
      | None => give_back try k'
      end
  end.

(** Backtracking match of a pattern at the start of [s]: the captured groups
    and the number of characters consumed.  An optional item is tried present
    first, then absent; a greedy group is tried with its longest run first. *)
Fixpoint re_match (items : list ReItem) (s : str) : option (list str * nat) :=
  match items with
  | [] => Some ([], 0%nat)
  | ReLit c :: items' =>
      match s with
      | c' :: s' =>
          if (c =? c')%N
          then '(gs, n) ← re_match items' s'; Some (gs, S n)
          else None
      | [] => None
      end
  | ReOpt c :: items' =>
      let absent := re_match items' s in
      match s with
      | c' :: s' =>
          if (c =? c')%N then
            match re_match items' s' with
            | Some (gs, n) => Some (gs, S n)
            | None => absent
            end
          else absent
      | [] => absent
      end
  | ReGroupPlus cls :: items' =>
      give_back
        (fun k => '(gs, n) ← re_match items' (drop k s);
                  Some (take k s :: gs, (k + n)%nat))
        (length (take_while cls s))
  end.

(** [re.findall(pattern, s)] for a pattern with one group that matches no
    empty string: scan left to right, and after a match resume behind it
    ([skip] counts the characters of the last match still to pass). *)
Fixpoint findall_from (items : list ReItem) (skip : nat) (s : str) : list str :=
  match s with
  | [] => []
  | _ :: rest =>
      match skip with
      | S k => findall_from items k rest
      | O =>
          match re_match items s with
          | Some ([g], S n) => g :: findall_from items n rest
          | _ => findall_from items 0 rest
          end
      end
  end.

Definition findall (items : list ReItem) (s : str) : list str :=
  findall_from items 0 s.

Definition is_digit (c : N) : bool := ((48 <=? c) && (c <=? 57))%N.

(** [r'<@!?([0-9]+)>'] *)
Definition mention_re : list ReItem :=
  [ReLit 60; ReLit 64; ReOpt 33; ReGroupPlus is_digit; ReLit 62]%N.

Definition get_user_id_from_mention (mention : str) : StrOrInt :=
  let regexRes := findall mention_re mention in
  match regexRes with
  | [r] => PyStr r
  | _ => PyInt 0
  end.

(** The specification's reading of a mention: [t] begins with [<@DIGITS>]
    or [<@!DIGITS>], [ds] are the digits and [n] the length of the mention. *)
Definition mention_prefix (t : str) (ds : str) (n : nat) : Prop :=
  ∃ bang post : list N,
    t = [60; 64]%N ++ bang ++ ds ++ [62%N] ++ post
    ∧ (bang = [] ∨ bang = [33%N])
    ∧ ds ≠ []
    ∧ Forall (λ c, is_digit c = true) ds
    ∧ n = (3 + length bang + length ds)%nat.

(** A mention with digits [ds] occurs in the token [s] at offset [i]. *)
Definition mention_at (s : str) (i : nat) (ds : str) : Prop :=
  ∃ (pre t : list N) (n : nat),
    s = pre ++ t ∧ length pre = i ∧ mention_prefix t ds n.

(** Every offset of [s], from [i] on, at which the pattern matches, with the
    digits found there (all offsets are tried, none is skipped). *)
Fixpoint mention_occurrences_from (i : nat) (s : str) : list (nat * list N) :=
  match s with
  | [] => []
  | _ :: rest =>
      match re_match mention_re s with
      | Some ([g], _) => (i, g) :: mention_occurrences_from (S i) rest
      | _ => mention_occurrences_from (S i) rest
      end
  end.

Definition mention_occurrences (s : str) : list (nat * list N) :=
  mention_occurrences_from 0 s.

(** ** The chat platform and the boundary collaborators

    The platform's objects are records of the fields the module reads.
    Identifiers are numbers; [discord.User.__eq__] compares the [id]. *)

Record User := { user_id : N }.
Record Role := { role_id : N }.
Record Channel := { channel_id : N; channel_name : list N; is_private : bool }.
Record Server := {
  server_id : N;
  server_name : list N;
  roles : list Role;
  channels : list Channel
}.
(** [message.server] and [message.channel.server] are the same object; it is
    [None] in a private channel. *)
Record Message := {
  content : list N;
  author : User;
  channel : Channel;
  server : option Server;
  mentions : list User
}.
Record Client := { user : User }.

(** A linked tournament-service account, and the rows of [db]. *)
Record Account := { account_owner : N }.
Record Tournament := { host_id : N; challonge_id : N; role_id_of : N; channel_id_of : N }.
Record DBServer := { trigger : list N }.
Record DBUser := { user_name : list N }.

#[global] Instance User_eq_dec : EqDecision User.
Proof. solve_decision. Defined.
#[global] Instance Role_eq_dec : EqDecision Role.
Proof. solve_decision. Defined.
#[global] Instance Channel_eq_dec : EqDecision Channel.
Proof. solve_decision. Defined.

(** [challonge_accounts.ChallongeAccess] *)
Inductive ChallongeAccess := NotRequired | RequiredForAuthor | RequiredForHost.

(** The errors [challonge_accounts.get] reports as its second component. *)
Inductive AccountError := UserNotFound | UserNameNotSet | APIKeyNotSet | InvalidCredentials.

(** The error values [validate_context] returns: the four classes of the
    module and the account errors it passes through. *)
Inductive ErrorValue :=
| MissingParameters (req given : nat)
| WrongChannel
| InsufficientPrivileges
| BadTournamentState
| AccountFailure (e : AccountError).


(** Raised exceptions (instances of [Exception]). *)
Inductive Exn :=
| AttributeError
| IndexError
| StopAsyncIteration
| BoundaryFailure (tag : N).

(** The values a callback receives as keyword arguments. *)
Inductive PyObj :=
| VStr (s : list N)
| VInt (n : N)
| VAccount (a : option Account)
| VRole (r : option Role)
| VChannel (c : option Channel).

(** A [dict] keeps its keys in insertion order, which [wrapper] reads back
    with [items()]: an association list with in-place update. *)
Abbreviation Kwargs := (list (list N * PyObj)) (only parsing).

Fixpoint dict_set (k : str) (v : PyObj) (d : Kwargs) : Kwargs :=
  match d with
  | [] => [(k, v)]
  | (k', v') :: d' =>
      if decide (k = k') then (k, v) :: d' else (k', v') :: dict_set k v d'
  end.

Fixpoint dict_get (k : str) (d : Kwargs) : option PyObj :=
  match d with
  | [] => None
  | (k', v') :: d' => if decide (k = k') then Some v' else dict_get k d'
  end.

(** [d.update(other)] *)
Definition dict_update (d other : Kwargs) : Kwargs :=
  foldl (λ acc kv, dict_set kv.1 kv.2 acc) d other.

(** What the program does to the outside, in the order it does it. *)
Inductive Event :=
| EGetPermissions (who : User) (ch : Channel)
| EGetChannelType (ch : Channel)
| EGetAccount (uid : N)
| EValidateTournamentState (acc : Account) (tournament : N) (state : N)
| EDbGetTournament (ch : Channel)
| EDbGetServer (sv : option Server)
| EDbGetUser (uid : N)
| ESendMessage (ch : Channel) (body : ErrorValue)
| EPrintException (msg : list N) (e : Exn)
| EPrintValidated (cmd args : list N) (m : Message) (location : list N)
| EProfilerEnter (cmd args : list N) (server : N)
| EProfilerExit
| ECall (callback : list N) (client : Client) (m : Message) (kwargs : Kwargs).

(** ** Effects: a result or a raised exception, and the events so far *)

Inductive Outcome (A : Type) :=
| Ret (a : A)
| Raise (e : Exn).
Arguments Ret {A} a.
Arguments Raise {A} e.

Definition M (A : Type) : Type := Outcome A * list Event.

#[global] Instance Outcome_ret : MRet Outcome := λ A a, Ret a.
#[global] Instance Outcome_bind : MBind Outcome := λ A B f c,
  match c with
  | Ret a => f a
  | Raise e => Raise e
  end.

#[global] Instance M_ret : MRet M := λ A a, (Ret a, []).
#[global] Instance M_bind : MBind M := λ A B f c,
  match c with
  | (Ret a, tr) => let '(r, tr') := f a in (r, tr ++ tr')
  | (Raise e, tr) => (Raise e, tr)
  end.

Definition raise {A} (e : Exn) : M A := (Raise e, []).
Definition emit (ev : Event) : M unit := (Ret tt, [ev]).
Definition lift {A} (o : Outcome A) : M A := (o, []).

(** [try: c  except Exception as e: handler(e)  else: k(result)] *)
Definition try_except_else {A B} (c : M A) (handler : Exn → M B) (k : A → M B) : M B :=
  match c with
  | (Ret a, tr) => let '(r, tr') := k a in (r, tr ++ tr')
  | (Raise e, tr) => let '(r, tr') := handler e in (r, tr ++ tr')
  end.

(** [with ctx: c], for a context manager that lets exceptions through:
    [leave] runs on both ways out of [c]. *)
Definition with_block {A} (enter leave : M unit) (c : M A) : M A :=
  enter;;
  match c with
  | (Ret a, tr) => emitted ← (Ret tt, tr); leave;; mret a
  | (Raise e, tr) => emitted ← (Ret tt, tr); leave;; raise e
  end.

(** The collaborators the module imports.  Each is a function of its
    arguments; the remote ones can raise.  [Permissions] and [ChannelType]
    are integer enumerations, of which the module names one member each. *)
Class Boundary := {
  Permissions_User : Z;
  ChannelType_Other : Z;
  boundary_get_permissions : User → Channel → Z;
  boundary_get_channel_type : Channel → Z;
  boundary_get_account : N → Outcome (option Account * option AccountError);
  boundary_validate_tournament_state : Account → N → N → Outcome bool;
  boundary_get_tournament : Channel → Tournament;
  boundary_get_server : option Server → DBServer;
  boundary_get_user : N → DBUser;
  boundary_send_message : Channel → ErrorValue → Outcome unit
}.

Section Calls.
Context `{Boundary}.

Definition get_permissions (who : User) (ch : Channel) : M Z :=
  (Ret (boundary_get_permissions who ch), [EGetPermissions who ch]).

Definition get_channel_type (ch : Channel) : M Z :=
  (Ret (boundary_get_channel_type ch), [EGetChannelType ch]).

Definition get_account (uid : N) : M (option Account * option AccountError) :=
  (boundary_get_account uid, [EGetAccount uid]).

Definition validate_tournament_state (acc : Account) (tournament state : N)
    : M bool :=
  (boundary_validate_tournament_state acc tournament state,
   [EValidateTournamentState acc tournament state]).

Definition db_get_tournament (ch : Channel) : M Tournament :=
  (Ret (boundary_get_tournament ch), [EDbGetTournament ch]).

Definition db_get_server (sv : option Server) : M DBServer :=
  (Ret (boundary_get_server sv), [EDbGetServer sv]).

Definition db_get_user (uid : N) : M DBUser :=
  (Ret (boundary_get_user uid), [EDbGetUser uid]).

Definition send_message (ch : Channel) (body : ErrorValue) : M unit :=
  (boundary_send_message ch body, [ESendMessage ch body]).
End Calls.

(** ** commands_core.py: the data model *)

Record Attributes := {
  minPermissions : Z;
  channelRestrictions : Z;
  challongeAccess : ChallongeAccess;
  tournamentState : option N
}.

(** The keyword arguments given to [Attributes] and to [register]. *)
Record AttributesKwargs := {
  kw_minPermissions : option Z;
  kw_channelRestrictions : option Z;
  kw_challongeAccess : option ChallongeAccess;
  kw_tournamentState : option N
}.

Definition Attributes_init `{Boundary} (kwargs : AttributesKwargs) : Attributes :=
  {| minPermissions := default Permissions_User (kw_minPermissions kwargs);
     channelRestrictions := default ChannelType_Other (kw_channelRestrictions kwargs);
     challongeAccess := default NotRequired (kw_challongeAccess kwargs);
     tournamentState := kw_tournamentState kwargs |}.

(** An async callable: its [__name__], its [__doc__] and what awaiting a
    call of it does. *)
Record Callback := {
  cb_name : list N;
  cb_doc : option (list N);
  cb_run : Client → Message → Kwargs → M unit
}.

(** [Command.__init__] leaves [attributes] at [None] unless one is given;
    [aliases] is never [None]: only [__init__] and [add_aliases] write it. *)
Record Command := {
  name : list N;
  cb : Callback;
  attributes : option Attributes;
  aliases : list (list N);
  reqParams : list (list N);
  optParams : list (list N);
  helpers : list (list N)
}.

Definition Command_init (name : str) (cb : Callback)
    (attributes : option Attributes) : Command :=
  {| name := name; cb := cb; attributes := attributes;
     aliases := []; reqParams := []; optParams := []; helpers := [] |}.

(** Commands are objects: the registry and the decorators share them by
    reference.  The store maps each reference to the object's fields. *)
Abbreviation Ref := positive (only parsing).
Abbreviation Heap := (gmap positive Command) (only parsing).

(** [Command(name, cb, attributes)]: a new object. *)
Definition new_Command (name : str) (cb : Callback)
    (attributes : option Attributes) (h : Heap) : Ref * Heap :=
  let r := fresh (dom h) in
  (r, <[r := Command_init name cb attributes]> h).

Definition set_reqParams (args : list str) (c : Command) : Command :=
  {| name := name c; cb := cb c; attributes := attributes c;
     aliases := aliases c; reqParams := args; optParams := optParams c;
     helpers := helpers c |}.

Definition set_optParams (args : list str) (c : Command) : Command :=
  {| name := name c; cb := cb c; attributes := attributes c;
     aliases := aliases c; reqParams := reqParams c; optParams := args;
     helpers := helpers c |}.

Definition set_aliases (args : list str) (c : Command) : Command :=
  {| name := name c; cb := cb c; attributes := attributes c;
     aliases := args; reqParams := reqParams c; optParams := optParams c;
     helpers := helpers c |}.

Definition set_helpers (args : list str) (c : Command) : Command :=
  {| name := name c; cb := cb c; attributes := attributes c;
     aliases := aliases c; reqParams := reqParams c; optParams := optParams c;
     helpers := args |}.

(** The builder methods: assign the field of [self], return [self]. *)
Definition add_required_params (self : Ref) (args : list str) (h : Heap)
    : Ref * Heap :=
  (self, alter (set_reqParams args) self h).

Definition add_optional_params (self : Ref) (args : list str) (h : Heap)
    : Ref * Heap :=
  (self, alter (set_optParams args) self h).

Definition add_aliases (self : Ref) (args : list str) (h : Heap)
    : Ref * Heap :=
  (self, alter (set_aliases args) self h).

Definition add_helpers (self : Ref) (args : list str) (h : Heap)
    : Ref * Heap :=
  (self, alter (set_helpers args) self h).

(** The module-level decorators forward to the builders. *)
Module Decorators.
Definition required_args (args : list str) (func : Ref) := add_required_params func args.
Definition optional_args (args : list str) (func : Ref) := add_optional_params func args.
Definition aliases (args : list str) (func : Ref) := add_aliases func args.
Definition helpers (args : list str) (func : Ref) := add_helpers func args.
End Decorators.

Definition validate_name (self : Command) (name' : str) : bool :=
  if decide (name self = name') then true
  else bool_decide (name' ∈ aliases self).

(** [self.attributes.<field>]: an [AttributeError] on [None]. *)
Definition attributes_of (self : Command) : M Attributes :=
  match attributes self with
  | Some a => mret a
  | None => raise AttributeError
  end.

Section Validation.
Context `{Boundary}.

(** The account block of [validate_context]: [Some r] where the source
    returns [r] from inside the block, [None] where it falls through. *)
Definition validate_account (a : Attributes) (message : Message)
    : M (option (bool * option ErrorValue)) :=
  match challongeAccess a with
  | RequiredForAuthor =>
      '(acc, exc) ← get_account (user_id (author message));
      match exc with
      | Some e => mret (Some (false, Some (AccountFailure e)))
      | None => mret None
      end
  | RequiredForHost =>
      db_t ← db_get_tournament (channel message);
      '(acc, exc) ← get_account (host_id db_t);
      match exc with
      | Some e => mret (Some (false, Some (AccountFailure e)))
      | None =>
          match acc, tournamentState a with
          | Some acc, Some state =>
              ok ← validate_tournament_state acc (challonge_id db_t) state;
              if negb ok then mret (Some (false, Some BadTournamentState))
              else mret None
          | _, _ => mret None
          end
      end
  | NotRequired => mret None
  end.

Definition validate_context (self : Command) (client : Client)
    (message : Message) (postCommand : list str)
    : M (bool * option ErrorValue) :=
  perm ← get_permissions (author message) (channel message);
  a ← attributes_of self;
  if perm <? minPermissions a then mret (false, Some InsufficientPrivileges)
  else
    ctype ← get_channel_type (channel message);
    if Z.land ctype (channelRestrictions a) =? 0
    then mret (false, Some WrongChannel)
    else
      early ← validate_account a message;
      match early with
      | Some r => mret r
      | None =>
          let reqParamsExpected := length (reqParams self) in
          let givenParams := length postCommand in
          if (givenParams <? reqParamsExpected)%nat
          then mret (false, Some (MissingParameters reqParamsExpected givenParams))
          else mret (true, None)
      end.
End Validation.

(** [discord.utils.find(pred, seq)] *)
Definition utils_find {A} (pred : A → bool) (seq : list A) : option A :=
  List.find pred seq.

(** [message.server.<field>]: an [AttributeError] in a private channel. *)
Definition server_of (message : Message) : M Server :=
  match server message with
  | Some sv => mret sv
  | None => raise AttributeError
  end.

Section Execution.
Context `{Boundary}.

(** One turn of the loop of [_fetch_helpers]. *)
Definition fetch_helper (self : Command) (message : Message)
    (postCommand : list str) (kwargs : Kwargs) (x : str) : M Kwargs :=
  if decide (x = py "account") then
    a ← attributes_of self;
    '(acc, exc) ←
      match challongeAccess a with
      | RequiredForAuthor => get_account (user_id (author message))
      | _ => db_t ← db_get_tournament (channel message);
             get_account (host_id db_t)
      end;
    mret (dict_set x (VAccount acc) kwargs)
  else if decide (x = py "tournament_id") then
    db_t ← db_get_tournament (channel message);
    mret (dict_set x (VInt (challonge_id db_t)) kwargs)
  else if decide (x = py "tournament_role") then
    db_t ← db_get_tournament (channel message);
    let roleid := role_id_of db_t in
    sv ← server_of message;
    mret (dict_set x
            (VRole (utils_find (λ r, bool_decide (role_id r = roleid)) (roles sv)))
            kwargs)
  else if decide (x = py "tournament_channel") then
    db_t ← db_get_tournament (channel message);
    let channelid := channel_id_of db_t in
    sv ← server_of message;
    mret (dict_set x
            (VChannel (utils_find (λ c, bool_decide (channel_id c = channelid))
                                  (channels sv)))
            kwargs)
  else if decide (x = py "participant_username") then
    u ← db_get_user (user_id (author message));
    mret (dict_set x (VStr (user_name u)) kwargs)
  else if decide (x = py "announcement") then
    mret (dict_set x (VStr (join (py " ") postCommand)) kwargs)
  else mret kwargs.

Fixpoint fetch_helpers_loop (self : Command) (message : Message)
    (postCommand : list str) (kwargs : Kwargs) (xs : list str) : M Kwargs :=
  match xs with
  | [] => mret kwargs
  | x :: xs' =>
      kwargs' ← fetch_helper self message postCommand kwargs x;
      fetch_helpers_loop self message postCommand kwargs' xs'
  end.

Definition _fetch_helpers (self : Command) (message : Message)
    (postCommand : list str) : M Kwargs :=
  fetch_helpers_loop self message postCommand [] (helpers self).
End Execution.

(** [postCommand[i]]: an [IndexError] out of range. *)
Definition token_at (postCommand : list str) (i : nat) : Outcome (list N) :=
  match postCommand !! i with
  | Some tok => Ret tok
  | None => Raise IndexError
  end.

(** The first loop of [_fetch_args], over [enumerate(self.reqParams)]. *)
Fixpoint fetch_required (postCommand : list str) (kwargs : Kwargs)
    (items : list (nat * list N)) : Outcome Kwargs :=
  match items with
  | [] => Ret kwargs
  | (count, x) :: items' =>
      tok ← token_at postCommand count;
      fetch_required postCommand (dict_set x (VStr tok) kwargs) items'
  end.

(** The second loop, over [enumerate(self.optParams)]. *)
Fixpoint fetch_optional (postCommand : list str) (offset : nat) (kwargs : Kwargs)
    (items : list (nat * list N)) : Outcome Kwargs :=
  match items with
  | [] => Ret kwargs
  | (count, x) :: items' =>
      if (count + offset <? length postCommand)%nat then
        tok ← token_at postCommand (count + offset);
        fetch_optional postCommand offset (dict_set x (VStr tok) kwargs) items'
      else fetch_optional postCommand offset kwargs items'
  end.

Definition _fetch_args (self : Command) (postCommand : list str) : Outcome Kwargs :=
  kwargs ← fetch_required postCommand [] (enumerate (reqParams self));
  let offset := length (reqParams self) in
  fetch_optional postCommand offset kwargs (enumerate (optParams self)).

(** Awaiting the call of [cb] with the keyword arguments; the call is recorded. *)
Definition call (cb : Callback) (client : Client) (message : Message)
    (kwargs : Kwargs) : M unit :=
  emit (ECall (cb_name cb) client message kwargs);;
  cb_run cb client message kwargs.

Definition execute `{Boundary} (self : Command) (client : Client)
    (message : Message) (postCommand : list str) : M unit :=
  let kwargs : Kwargs := [] in
  args ← lift (_fetch_args self postCommand);
  let kwargs := dict_update kwargs args in
  helped ← _fetch_helpers self message postCommand;
  let kwargs := dict_update kwargs helped in
  call (cb self) client message kwargs.

(** [lines[0]]: an [IndexError] when there is no line. *)
Definition first_line (lines : list str) : Outcome (list N) :=
  match lines with
  | l :: _ => Ret l
  | [] => Raise IndexError
  end.

Definition simple_print (self : Command) : Outcome (list N) :=
  let req :=
    if (length (reqParams self) =? 0)%nat then py ""
    else join (py " ") ((λ p, py "[" ++ p ++ py "]") <$> reqParams self) in
  let opt :=
    if (length (optParams self) =? 0)%nat then py ""
    else join (py " ") ((λ p, py "{" ++ p ++ py "}") <$> optParams self) in
  doc ← match cb_doc (cb self) with
        | None => Ret (py "No description available")
        | Some d => first_line (splitlines false d)
        end;
  Ret (py "`" ++ name self ++ py "` " ++ req ++ opt ++ py " -- *" ++ doc ++ py "*").

Definition pretty_print (self : Command) : Outcome (list N) :=
  short ← simple_print self;
  Ret (short ++ [10%N] ++ py "```"
         ++ match cb_doc (cb self) with None => py "" | Some d => d end
         ++ (if (length (aliases self) =? 0)%nat then py "No aliases"
             else py "Aliases: " ++ join (py " / ") (aliases self))
         ++ py "```").

(** ** The registry *)

Record CommandsHandler := { _commands : list positive }.

Definition CommandsHandler_init : CommandsHandler := {| _commands := [] |}.

(** The objects and the registry: what registration changes. *)
Record Store := { heap : gmap positive Command; commands : CommandsHandler }.

Definition _add (command : Ref) (st : Store) : Ref * Store :=
  (command,
   {| heap := heap st;
      commands := {| _commands := _commands (commands st) ++ [command] |} |}).

(** [find]: the first command of the registry that answers to [name].  A
    reference of the registry always denotes an object; the [None] branch
    only makes the function total. *)
Fixpoint find_in (h : Heap) (cmds : list positive) (name' : str) : option positive :=
  match cmds with
  | [] => None
  | command :: cmds' =>
      match h !! command with
      | Some c => if validate_name c name' then Some command
                  else find_in h cmds' name'
      | None => find_in h cmds' name'
      end
  end.

Definition find (st : Store) (name' : str) : option positive :=
  find_in (heap st) (_commands (commands st)) name'.

(** The [wrapper] that [register] puts around [func]. *)
Definition wrapper (func : Callback) : Callback :=
  {| cb_name := py "wrapper";
     cb_doc := None;
     cb_run := λ client message postCommand,
       let args :=
         join (py " ")
              (omap (λ kv, match kv.2 with
                           | VStr v => if decide (kv.1 ≠ py "key") then Some v else None
                           | _ => None
                           end) postCommand) in
       server ← (if is_private (channel message) then mret 0%N
                 else sv ← server_of message; mret (server_id sv));
       with_block (emit (EProfilerEnter (cb_name func) args server))
                  (emit EProfilerExit)
                  (cb_run func client message postCommand) |}.

Definition set_doc (doc : option (list N)) (f : Callback) : Callback :=
  {| cb_name := cb_name f; cb_doc := doc; cb_run := cb_run f |}.

(** [register] with its keyword arguments, applied to [func]. *)
Definition register `{Boundary} (attributes : AttributesKwargs) (func : Callback)
    (st : Store) : Ref * Store :=
  let wrapper := wrapper func in
  let wrapper := set_doc (cb_doc func) wrapper in
  let '(command, h) :=
    new_Command (cb_name func) wrapper (Some (Attributes_init attributes)) (heap st) in
  _add command {| heap := h; commands := commands st |}.

Section Dispatch.
Context `{Boundary}.

Definition _get_command_and_postcommand (st : Store) (client : Client)
    (message : Message) : M (option (positive * list (list N))) :=
  let split := split (content message) in
  if (length split =? 0)%nat then mret None
  else if is_private (channel message) then
    match split !! 0%nat with
    | Some name' =>
        match find st name' with
        | Some command => mret (Some (command, drop 1 split))
        | None => mret None
        end
    | None => raise IndexError
    end
  else
    row ← db_get_server (server message);
    let commandTrigger := trigger row in
    if (length split <=? 1)%nat then mret None
    else
      if bool_decide (split !! 0%nat = Some commandTrigger)
         || bool_decide (user client ∈ mentions message)
      then
        if (1 <? length split)%nat then
          match split !! 1%nat with
          | Some name' =>
              match find st name' with
              | Some command => mret (Some (command, drop 2 split))
              | None => mret None
              end
          | None => raise IndexError
          end
        else mret None
      else mret None.

(** The place named in the log line of [try_execute]. *)
Definition location (message : Message) : M (list N) :=
  if is_private (channel message) then mret (py "PM")
  else sv ← server_of message;
       mret (server_name sv ++ py "/#" ++ channel_name (channel message)).

Definition try_execute (st : Store) (client : Client) (message : Message)
    : M unit :=
  found ← _get_command_and_postcommand st client message;
  match found with
  | None => mret tt
  | Some (command, postCommand) =>
      match heap st !! command with
      | None => mret tt
      | Some c =>
          try_except_else
            (validate_context c client message postCommand)
            (λ e, emit (EPrintException (content message) e))
            (λ '(validated, exc),
               match exc with
               | Some e => send_message (channel message) e
               | None =>
                   if validated : bool then
                     execute c client message postCommand;;
                     loc ← location message;
                     emit (EPrintValidated
                             (name c)
                             (if (length postCommand =? 0)%nat then py ""
                              else py " " ++ join (py " ") postCommand)
                             message loc)
                   else mret tt
               end)
      end
  end.


End Dispatch.

(** ** The validation pipeline as the specification words it

    Four checks in a fixed order; each passes ([None]) or fails with an
    error, and the first failure is the result. *)

Section Pipeline.
Context `{Boundary}.

Definition permission_check (a : Attributes) (message : Message)
    : M (option ErrorValue) :=
  level ← get_permissions (author message) (channel message);
  mret (if minPermissions a <=? level then None
        else Some InsufficientPrivileges).

Definition channel_type_check (a : Attributes) (message : Message)
    : M (option ErrorValue) :=
  ctype ← get_channel_type (channel message);
  mret (if Z.land ctype (channelRestrictions a) =? 0
        then Some WrongChannel else None).

(** The state sub-check: only with an account and a required state. *)
Definition tournament_state_check (a : Attributes) (acc : option Account)
    (db_t : Tournament) : M (option ErrorValue) :=
  match acc, tournamentState a with
  | Some acc, Some state =>
      ok ← validate_tournament_state acc (challonge_id db_t) state;
      mret (if ok : bool then None else Some BadTournamentState)
  | _, _ => mret None
  end.

Definition tournament_account_check (a : Attributes) (message : Message)
    : M (option ErrorValue) :=
  match challongeAccess a with
  | NotRequired => mret None
  | RequiredForAuthor =>
      looked ← get_account (user_id (author message));
      mret (AccountFailure <$> looked.2)
  | RequiredForHost =>
      db_t ← db_get_tournament (channel message);
      looked ← get_account (host_id db_t);
      match looked.2 with
      | Some e => mret (Some (AccountFailure e))
      | None => tournament_state_check a looked.1 db_t
      end
  end.

Definition argument_count_check (self : Command) (postCommand : list str)
    : M (option ErrorValue) :=
  let required := length (reqParams self) in
  let given := length postCommand in
  mret (if (required <=? given)%nat then None
        else Some (MissingParameters required given)).

(** Run the checks in order and stop at the first that fails. *)
Fixpoint first_failure (checks : list (M (option ErrorValue)))
    : M (bool * option ErrorValue) :=
  match checks with
  | [] => mret (true, None)
  | check :: checks' =>
      failed ← check;
      match failed with
      | Some e => mret (false, Some e)
      | None => first_failure checks'
      end
  end.

(** Checks 1 to 3: what is verified before the arguments are counted. *)
Definition context_checks (a : Attributes) (message : Message)
    : list (M (option ErrorValue)) :=
  [permission_check a message; channel_type_check a message;
   tournament_account_check a message].

Definition validation_pipeline (self : Command) (a : Attributes)
    (message : Message) (postCommand : list str)
    : M (bool * option ErrorValue) :=
  first_failure (context_checks a message
                   ++ [argument_count_check self postCommand]).

(** A command is listed for an invoker when it validates with no
    argument, or fails only for missing parameters. *)
Definition listed (client : Client) (message : Message) (c : Command) : bool :=
  match (validate_context c client message []).1 with
  | Ret (true, _) => true
  | Ret (false, Some (MissingParameters _ _)) => true
  | _ => false
  end.
End Pipeline.

(** Events that talk back to the chat or run a command. *)
Definition is_send (ev : Event) : bool :=
  match ev with ESendMessage _ _ => true | _ => false end.
Definition is_call (ev : Event) : bool :=
  match ev with ECall _ _ _ _ => true | _ => false end.

(** The keyword arguments as the specification gives them: the parameter
    names, required then optional, bound in order to the tokens. *)
Definition bound_args (params : list str) (tokens : list str) : Kwargs :=
  foldl (λ (kw : Kwargs) (kv : list N * PyObj), dict_set kv.1 kv.2 kw) []
        (zip params (VStr <$> tokens)).

(** A check passes when it returns no error. *)
Definition passes (check : M (option ErrorValue)) : Prop := check.1 = Ret None.

(** Checks run in order and the run stops at the first that does not pass:
    the result is that check's failure, and no later check leaves an event. *)
Inductive stops_at_first_failure (checks : list (M (option ErrorValue)))
    : M (bool * option ErrorValue) → Prop :=
| all_checks_pass :
    Forall passes checks →
    stops_at_first_failure checks (Ret (true, None), concat checks.*2)
| check_fails passed check rest e :
    checks = passed ++ check :: rest →
    Forall passes passed →
    check.1 = Ret (Some e) →
    stops_at_first_failure checks
      (Ret (false, Some e), concat passed.*2 ++ check.2)
| check_raises passed check rest x :
    checks = passed ++ check :: rest →
    Forall passes passed →
    check.1 = Raise x →
    stops_at_first_failure checks (Raise x, concat passed.*2 ++ check.2).

(** The two results a validation can return. *)
Definition well_formed_result (r : Outcome (bool * option ErrorValue)) : Prop :=
  match r with
  | Ret (true, None) => True
  | Ret (false, Some _) => True
  | Ret (true, Some _) => False
  | Ret (false, None) => False
  | Raise _ => True
  end.

(** The four list fields of a command and the builder that writes each. *)
Inductive Field := FRequired | FOptional | FAliases | FHelpers.

Definition field (f : Field) (c : Command) : list (list N) :=
  match f with
  | FRequired => reqParams c
  | FOptional => optParams c
  | FAliases => aliases c
  | FHelpers => helpers c
  end.

Definition builder (f : Field) : positive → list (list N) → gmap positive Command
    → positive * gmap positive Command :=
  match f with
  | FRequired => add_required_params
  | FOptional => add_optional_params
  | FAliases => add_aliases
  | FHelpers => add_helpers
  end.

(** The short description with [description] as its last part: the name in
    backticks, [[p]] for each required and [{p}] for each optional
    parameter, then the description between asterisks. *)
Definition short_description (c : Command) (description : list N) : list N :=
  py "`" ++ name c ++ py "` "
    ++ join (py " ") ((λ p, py "[" ++ p ++ py "]") <$> reqParams c)
    ++ join (py " ") ((λ p, py "{" ++ p ++ py "}") <$> optParams c)
    ++ py " -- *" ++ description ++ py "*".

Definition aliases_text (c : Command) : list N :=
  match aliases c with
  | [] => py "No aliases"
  | _ :: _ => py "Aliases: " ++ join (py " / ") (aliases c)
  end.

(** An event that neither sends a chat message nor runs a callback. *)
Definition quiet (ev : Event) : Prop := is_send ev = false ∧ is_call ev = false.

(** ** A small installation, for the examples *)

Definition demo_boundary : Boundary :=
  {| Permissions_User := 1;
     ChannelType_Other := 1;
     boundary_get_permissions := λ who _, if (user_id who =? 7)%N then 2 else 1;
     boundary_get_channel_type := λ ch, if is_private ch then 2 else 1;
     boundary_get_account := λ uid,
       if (uid =? 7)%N then Ret (Some {| account_owner := 7 |}, None)
       else Ret (None, Some UserNotFound);
     boundary_validate_tournament_state := λ _ _ state,
       if (state =? 0)%N then Raise (BoundaryFailure 503) else Ret (state =? 1)%N;
     boundary_get_tournament := λ _,
       {| host_id := 7; challonge_id := 99; role_id_of := 5; channel_id_of := 6 |};
     boundary_get_server := λ _, {| trigger := py "!" |};
     boundary_get_user := λ _, {| user_name := py "alice" |};
     boundary_send_message := λ _ _, Ret tt |}.

Definition demo_channel : Channel :=
  {| channel_id := 6; channel_name := py "lobby"; is_private := false |}.
Definition demo_dm : Channel :=
  {| channel_id := 8; channel_name := py ""; is_private := true |}.
Definition demo_server : Server :=
  {| server_id := 3; server_name := py "club"; roles := [{| role_id := 5 |}];
     channels := [demo_channel] |}.
Definition demo_bot : Client := {| user := {| user_id := 1 |} |}.

Definition demo_message (text : string) : Message :=
  {| content := py text; author := {| user_id := 42 |}; channel := demo_channel;
     server := Some demo_server; mentions := [] |}.
Definition demo_private_message (text : string) : Message :=
  {| content := py text; author := {| user_id := 42 |}; channel := demo_dm;
     server := None; mentions := [] |}.

(** A callback that does nothing, with a name and a docstring. *)
Definition demo_callback (name doc : string) : Callback :=
  {| cb_name := py name; cb_doc := Some (py doc); cb_run := λ _ _ _, mret tt |}.

Definition no_kwargs : AttributesKwargs :=
  {| kw_minPermissions := None; kw_channelRestrictions := None;
     kw_challongeAccess := None; kw_tournamentState := None |}.

Definition empty_store : Store :=
  {| heap := ∅; commands := CommandsHandler_init |}.

(** A command with [requiredParams = [a, b]] and [optionalParams = [c]]. *)
Definition demo_command : Command :=
  set_optParams [py "c"]
    (set_reqParams [py "a"; py "b"]
       (Command_init (py "seed") (demo_callback "seed" "Seeds the bracket")
          (Some (@Attributes_init demo_boundary no_kwargs)))).

(** [bar], with the alias [foo], is registered before [foo]. *)
Definition demo_registry : positive * positive * Store :=
  let '(bar, st) := @register demo_boundary no_kwargs (demo_callback "bar" "Bar") empty_store in
  let '(bar, h) := add_aliases bar [py "foo"] (heap st) in
  let st := {| heap := h; commands := commands st |} in
  let '(foo, st) := @register demo_boundary no_kwargs (demo_callback "foo" "Foo") st in
  (bar, foo, st).

(** [start] needs the host's account and a tournament in state 0, a state
    the demo validator cannot check: it raises. *)
Definition demo_start_store : positive * Store :=
  @register demo_boundary
    {| kw_minPermissions := None; kw_channelRestrictions := None;
       kw_challongeAccess := Some RequiredForHost;
       kw_tournamentState := Some 0%N |}
    (demo_callback "start" "Starts the tournament") empty_store.

(** [purge], for moderators only, is registered before [ping]. *)
Definition demo_help_store : positive * positive * Store :=
  let '(purge, st) :=
    @register demo_boundary
      {| kw_minPermissions := Some 2; kw_channelRestrictions := None;
         kw_challongeAccess := None; kw_tournamentState := None |}
      (demo_callback "purge" "Purges the channel") empty_store in
  let '(ping, st) :=
    @register demo_boundary no_kwargs (demo_callback "ping" "Answers pong") st in
  let '(ping, h) := add_required_params ping [py "count"] (heap st) in
  (purge, ping, {| heap := h; commands := commands st |}).

(** [ping], allowed in every kind of channel, takes no parameter. *)
Definition demo_ping_store : positive * Store :=
  @register demo_boundary
    {| kw_minPermissions := None; kw_channelRestrictions := Some 3;
       kw_challongeAccess := None; kw_tournamentState := None |}
    (demo_callback "ping" "Answers pong") empty_store.


(** A callback whose docstring is the empty string. *)
Definition blank_callback : Callback :=
  {| cb_name := py "blank"; cb_doc := Some []; cb_run := λ _ _ _, mret tt |}.

(** [blank] is registered before [ping]. *)
Definition demo_blank_store : positive * positive * Store :=
  let '(blank, st) :=
    @register demo_boundary no_kwargs blank_callback empty_store in
  let '(ping, st) :=
    @register demo_boundary no_kwargs (demo_callback "ping" "Answers pong") st in
  (blank, ping, st).

(** ** utils.py: tables *)

(** [s.ljust(width, fillchar)]; a width below [len(s)] adds nothing. *)
Definition ljust (s : str) (width : Z) (fillchar : N) : list N :=
  s ++ replicate (Z.to_nat (width - Z.of_nat (length s))) fillchar.

(** The loop of [print_array]: a row is kept unless [func] gives [None] or
    the empty string; [func] is a Python function and can raise. *)
Fixpoint print_array_rows {A} (func : A → Outcome (option (list N)))
    (iterable : list A) (arr : list (list N)) : Outcome (list (list N)) :=
  match iterable with
  | [] => Ret arr
  | x :: iterable' =>
      s ← func x;
      match s with
      | Some (c :: row) => print_array_rows func iterable' (arr ++ [c :: row])
      | _ => print_array_rows func iterable' arr
      end
  end.

(** [print_array]: what it returns, and what it has printed by then. *)
Definition print_array {A} (title header : str) (iterable : list A)
    (func : A → Outcome (option (list N)))
    : Outcome (list N) * list (list N) :=
  let vertSep := py "|" in
  let arraySep := 61%N in
  let headerSep := 45%N in
  let lineLen := Z.of_nat (length header) in
  let arrayLineSeparators := ljust (py "") lineLen arraySep in
  let headerLineSeparators := ljust vertSep (lineLen - 1) headerSep ++ vertSep in
  let arr :=
    [arrayLineSeparators;
     vertSep ++ py " " ++ ljust title (lineLen - 3) 32 ++ vertSep;
     headerLineSeparators; header; headerLineSeparators] in
  match print_array_rows func iterable arr with
  | Ret arr =>
      let finalStr := join [10%N] (arr ++ [arrayLineSeparators]) in
      (Ret finalStr, [finalStr])
  | Raise e => (Raise e, [])
  end.

(** ** commands_core.py: the diagnostic dump *)

(** [commandFormat.format(f0, ..., f6)]: each field is padded with spaces
    to the width of its column and never cut. *)
Definition commandFormat (f0 f1 f2 f3 f4 f5 f6 : str) : list N :=
  py "| " ++ ljust f0 17 32 ++ py "| " ++ ljust f1 16 32
    ++ py "| " ++ ljust f2 13 32 ++ py "| " ++ ljust f3 11 32
    ++ py "| " ++ ljust f4 20 32 ++ py "| " ++ ljust f5 20 32
    ++ py "| " ++ ljust f6 20 32 ++ py "|".

(** The [name] of the members of the imported enumerations, which are
    declared outside this module. *)
Class EnumNames := {
  Permissions_name : Z → list N;
  ChannelType_name : Z → list N;
  ChallongeAccess_name : ChallongeAccess → list N
}.

(** The row of a command: the lambda given to [print_array] by [dump]. *)
Definition dump_row `{EnumNames} (c : Command) : Outcome (option (list N)) :=
  match attributes c with
  | None => Raise AttributeError
  | Some a =>
      Ret (Some
        (commandFormat
           (name c)
           (Permissions_name (minPermissions a))
           (ChannelType_name (channelRestrictions a))
           (ChallongeAccess_name (challongeAccess a))
           (if (length (aliases c) =? 0)%nat then py "-"
            else join (py "/") (aliases c))
           (if (length (reqParams c) =? 0)%nat then py "-"
            else join (py "/") (reqParams c))
           (if (length (optParams c) =? 0)%nat then py "-"
            else join (py "/") (optParams c))))
  end.

Definition dump_header : list N :=
  commandFormat (py "Name") (py "Min Permissions") (py "Channel Type")
    (py "Challonge") (py "Aliases") (py "Required Args") (py "Optional Args").

(** [CommandsHandler.dump]; the registry holds references, and each one
    denotes an object (the [None] branch only makes the function total). *)
Definition dump `{EnumNames} (st : Store) : Outcome (list N) * list (list N) :=
  print_array (py "Commands Registered") dump_header
    (_commands (commands st))
    (λ r, match heap st !! r with
          | Some c => dump_row c
          | None => Ret None
          end).

(** A registry is well formed when each of its references denotes an
    object of the store. *)
Definition registry_live (st : Store) : Prop :=
  ∀ r, r ∈ _commands (commands st) → is_Some (heap st !! r).

(** Each registered command has its attributes: what [dump] reads. *)
Definition registry_attributed (st : Store) : Prop :=
  ∀ r, r ∈ _commands (commands st) →
    ∃ c, heap st !! r = Some c ∧ is_Some (attributes c).

(** The stores the module makes: the registry starts empty, [register]
    adds a command, and a builder changes a list of an object. *)
Inductive built `{Boundary} : Store → Prop :=
| built_init :
    built {| heap := ∅; commands := CommandsHandler_init |}
| built_register (attributes : AttributesKwargs) (func : Callback) (st : Store) :
    built st → built (register attributes func st).2
| built_builder (f : Field) (self : positive) (args : list (list N))
    (st : Store) :
    built st →
    built {| heap := (builder f self args (heap st)).2;
             commands := commands st |}.

(** The argument summary that [wrapper] hands to the profiler. *)
Definition profiled_args (postCommand : Kwargs) : list N :=
  join (py " ")
       (omap (λ kv : list N * PyObj,
                match kv.2 with
                | VStr v => if decide (kv.1 ≠ py "key") then Some v else None
                | _ => None
                end) postCommand).

(** A group of lines fits a page when it is shorter than the limit, or is
    no more than one line. *)
Definition fits_page (max_per_page : Z) (g : list (list N)) : Prop :=
  Z.of_nat (length (concat g)) < max_per_page ∨ (length g ≤ 1)%nat.

(** What the loop of [paginate] keeps true of the pages it has closed
    ([gs], as groups of lines) and of the page it is filling ([cur]). *)
Definition paginate_pages_inv (dump : str) (max_per_page : Z)
    (done : list (list N)) (st : PaginateState) : Prop :=
  ∃ (gs : list (list (list N))) (cur : list (list N)),
    paginated st = @concat N <$> gs
    ∧ page_index st = length (concat (concat gs))
    ∧ len_count st = length (concat cur)
    ∧ concat gs ++ cur = done
    ∧ Forall (fits_page max_per_page) gs
    ∧ fits_page max_per_page cur
    ∧ (gs = [] ∨ cur ≠ [])
    ∧ Forall (λ g, g ≠ []) (tail gs).

(** [ping] with the helper [tournament_role], which needs a server. *)
Definition demo_role_store : positive * Store :=
  let '(ping, st) := demo_ping_store in
  let '(ping, h) := add_helpers ping [py "tournament_role"] (heap st) in
  (ping, {| heap := h; commands := commands st |}).

(** Member names for the examples. *)
Definition demo_names : EnumNames :=
  {| Permissions_name := λ _, py "User";
     ChannelType_name := λ _, py "Other";
     ChallongeAccess_name := λ access,
       match access with
       | NotRequired => py "NotRequired"
       | RequiredForAuthor => py "RequiredForAuthor"
       | RequiredForHost => py "RequiredForHost"
       end |}.

(** * Theorems *)

(** ** The embedding on concrete inputs *)

Example split_tokens :
  split (py "  !  seed   a b ") = [py "!"; py "seed"; py "a"; py "b"].
Proof. reflexivity. Qed.

Example splitlines_terminators :
  splitlines true [97; 13; 10; 98; 13; 99; 10; 10; 100]%N
  = [[97; 13; 10]; [98; 13]; [99; 10]; [10]; [100]]%N
  ∧ splitlines false [97; 13; 10; 98; 13; 99; 10; 10; 100]%N
    = [[97]; [98]; [99]; []; [100]]%N
  ∧ splitlines false [] = [].
Proof. repeat split; reflexivity. Qed.

Example paginate_three_lines :
  paginate (py "abcde
fghij
klmno
") 10 = [py "abcde
"; py "fghij
klmno
"].
Proof. vm_compute. reflexivity. Qed.

Example paginate_short : paginate (py "abc") 2000 = [py "abc"].
Proof. reflexivity. Qed.

(** A first line as long as the limit closes an empty page. *)
Example paginate_long_first_line :
  paginate (py "abcdefghij
k") 5 = [py ""; py "abcdefghij
k"].
Proof. vm_compute. reflexivity. Qed.

Example mention_plain :
  get_user_id_from_mention (py "<@123456>") = PyStr (py "123456").
Proof. reflexivity. Qed.

Example mention_nick :
  get_user_id_from_mention (py "<@!123456>") = PyStr (py "123456").
Proof. reflexivity. Qed.

Example mention_none :
  get_user_id_from_mention (py "no mention here") = PyInt 0.
Proof. reflexivity. Qed.

Example mention_two : get_user_id_from_mention (py "<@1> <@2>") = PyInt 0.
Proof. reflexivity. Qed.

Example mention_inside_text :
  get_user_id_from_mention (py "hi <@!42>, <@> and <@x1>") = PyStr (py "42").
Proof. reflexivity. Qed.

(** A user-level author and a moderators-only command. *)
Example validate_moderators_only :
  (c ← heap demo_help_store.2 !! demo_help_store.1.1;
   Some (@validate_context demo_boundary c demo_bot (demo_message "! purge") []))
  = Some (Ret (false, Some InsufficientPrivileges),
          [EGetPermissions {| user_id := 42 |} demo_channel]).
Proof. vm_compute. reflexivity. Qed.

(** The host has an account, the tournament is not in state 2. *)
Example validate_bad_tournament_state :
  @validate_context demo_boundary
    (Command_init (py "next") (demo_callback "next" "")
       (Some {| minPermissions := 1; channelRestrictions := 1;
                challongeAccess := RequiredForHost; tournamentState := Some 2%N |}))
    demo_bot (demo_message "! next") []
  = (Ret (false, Some BadTournamentState),
     [EGetPermissions {| user_id := 42 |} demo_channel;
      EGetChannelType demo_channel; EDbGetTournament demo_channel;
      EGetAccount 7;
      EValidateTournamentState {| account_owner := 7 |} 99 2]).
Proof. vm_compute. reflexivity. Qed.

(** The author has no account. *)
Example validate_no_account :
  @validate_context demo_boundary
    (Command_init (py "join") (demo_callback "join" "")
       (Some {| minPermissions := 1; channelRestrictions := 1;
                challongeAccess := RequiredForAuthor; tournamentState := None |}))
    demo_bot (demo_message "! join") []
  = (Ret (false, Some (AccountFailure UserNotFound)),
     [EGetPermissions {| user_id := 42 |} demo_channel;
      EGetChannelType demo_channel; EGetAccount 42]).
Proof. vm_compute. reflexivity. Qed.

(** A command built without attributes cannot be validated. *)
Example validate_without_attributes :
  @validate_context demo_boundary
    (Command_init (py "raw") (demo_callback "raw" "") None)
    demo_bot (demo_message "! raw") []
  = (Raise AttributeError, [EGetPermissions {| user_id := 42 |} demo_channel]).
Proof. reflexivity. Qed.

(** "ping extra" in a private channel runs [ping] and logs "PM". *)
Example try_execute_private_ping :
  @try_execute demo_boundary demo_ping_store.2 demo_bot
     (demo_private_message "ping extra")
  = (Ret tt,
     [EGetPermissions {| user_id := 42 |} demo_dm; EGetChannelType demo_dm;
      ECall (py "wrapper") demo_bot (demo_private_message "ping extra") [];
      EProfilerEnter (py "ping") (py "") 0; EProfilerExit;
      EPrintValidated (py "ping") (py " extra")
        (demo_private_message "ping extra") (py "PM")]).
Proof. vm_compute. reflexivity. Qed.

(** No trigger, no mention: nothing happens but the trigger lookup. *)
Example try_execute_no_trigger :
  @try_execute demo_boundary demo_ping_store.2 demo_bot
     (demo_message "hello ping")
  = (Ret tt, [EDbGetServer (Some demo_server)]).
Proof. vm_compute. reflexivity. Qed.

Example pretty_print_aliases :
  (c ← heap demo_registry.2 !! demo_registry.1.1; Some (pretty_print c))
  = Some (Ret (py "`bar`  -- *Bar*
```BarAliases: foo```")).
Proof. vm_compute. reflexivity. Qed.

(** ** Pagination *)

Lemma concat_splitlines_from (n : nat) :
  ∀ (s cur : list N), (length s ≤ n)%nat →
    concat (splitlines_from true cur s) = cur ++ s.
Proof.
  induction n as [|n IH]; intros [|c rest] cur Hlen; simpl in *; try lia.
  - destruct cur; simpl; by rewrite ?app_nil_r.
  - destruct cur; simpl; by rewrite ?app_nil_r.
  - destruct (is_linebreak c).
    + destruct (c =? 13)%N.
      * destruct rest as [|c' rest'].
        { simpl. by rewrite app_nil_r. }
        destruct (c' =? 10)%N; rewrite concat_cons, IH by (simpl in *; lia);
          simpl; by rewrite <- app_assoc.
      * rewrite concat_cons, IH by lia. simpl. by rewrite <- app_assoc.
    + rewrite IH by lia. by rewrite <- app_assoc.
Qed.

Lemma concat_splitlines (s : list N) : concat (splitlines true s) = s.
Proof. unfold splitlines. by rewrite (concat_splitlines_from (length s)). Qed.

(** The loop invariant of [paginate]: the pages closed so far are whole
    groups of lines, and the open page holds the lines in [cur]. *)
Definition paginate_inv (dump : list N) (done : list (list N))
    (st : PaginateState) : Prop :=
  ∃ (gs : list (list (list N))) (cur : list (list N)),
    paginated st = @concat N <$> gs
    ∧ page_index st = length (concat (concat gs))
    ∧ len_count st = length (concat cur)
    ∧ concat gs ++ cur = done.

Lemma paginate_steps (dump : list N) (max_per_page : Z) (n : nat) :
  ∀ (ls done : list (list N)) (post : list N) (st : PaginateState),
    dump = concat (done ++ ls) ++ post →
    (length done + length ls < n)%nat →
    paginate_inv dump done st →
    paginate_inv dump (done ++ ls)
      (foldl (paginate_step dump max_per_page n) st
             (zip (seq (length done) (length ls)) ls)).
Proof.
  induction ls as [|line ls IH]; intros done post st Hdump Hn Hinv.
  - simpl. by rewrite app_nil_r.
  - simpl. replace (done ++ line :: ls) with ((done ++ [line]) ++ ls)
      by (by rewrite <- app_assoc).
    replace (S (length done)) with (length (done ++ [line]))
      by (rewrite length_app; simpl; lia).
    apply (IH _ post).
    + by rewrite <- app_assoc.
    + rewrite length_app. simpl in *. lia.
    + destruct Hinv as (gs & cur & Hp & Hi & Hc & Hd).
      unfold paginate_step.
      destruct (Z.eqb_spec (Z.of_nat (length done)) (Z.of_nat n - 1));
        [simpl in Hn; lia|].
      destruct (max_per_page <=? _).
      * exists (gs ++ [cur]), [line]. simpl. repeat split.
        -- rewrite Hp, fmap_app. simpl. f_equal. f_equal.
           unfold slice. rewrite Hi, Hc.
           replace (_ + _ - _)%nat with (length (concat cur)) by lia.
           subst dump done. rewrite !concat_app, <- !app_assoc.
           rewrite drop_app_length. by rewrite take_app_length.
        -- rewrite Hi, Hc, !concat_app, length_app. simpl.
           by rewrite app_nil_r.
        -- by rewrite app_nil_r.
        -- rewrite concat_app. simpl. rewrite app_nil_r, <- Hd.
           by rewrite <- app_assoc.
      * exists gs, (cur ++ [line]). simpl. repeat split; try done.
        -- rewrite Hc, concat_app, length_app. simpl. by rewrite app_nil_r.
        -- rewrite <- Hd. by rewrite <- app_assoc.
Qed.

Lemma enumerate_snoc {A} (l : list A) (x : A) :
  enumerate (l ++ [x]) = enumerate l ++ [(length l, x)].
Proof.
  unfold enumerate. rewrite length_app. simpl.
  rewrite seq_app. simpl.
  rewrite zip_with_app by (by rewrite length_seq). done.
Qed.

Lemma paginate_groups (dump : list N) (max_per_page : Z) :
  ∃ groups : list (list (list N)),
    concat groups = splitlines true dump
    ∧ paginate dump max_per_page = @concat N <$> groups.
Proof.
  unfold paginate. destruct (_ <? _).
  - exists [splitlines true dump]. simpl.
    by rewrite app_nil_r, concat_splitlines.
  - pose proof (concat_splitlines dump) as Hcat.
    destruct (splitlines true dump) as [|x l _] using rev_ind.
    + exists []. done.
    + rewrite enumerate_snoc, foldl_app. simpl.
      destruct (paginate_steps dump max_per_page (length (l ++ [x]))
                  l [] x {| paginated := []; page_index := 0; len_count := 0 |})
        as (gs & cur & Hp & Hi & Hc & Hd).
      * simpl. rewrite <- Hcat. by rewrite concat_app; simpl; rewrite app_nil_r.
      * rewrite length_app. simpl. lia.
      * exists [], []. done.
      * simpl in *. unfold enumerate.
        set (st := foldl _ _ _) in *.
        unfold paginate_step.
        rewrite length_app. simpl.
        destruct (Z.eqb_spec (Z.of_nat (length l)) (Z.of_nat (length l + 1) - 1)); [|lia].
        simpl. exists (gs ++ [cur ++ [x]]). split.
        -- rewrite concat_app. simpl. rewrite app_nil_r, app_assoc. by rewrite Hd.
        -- rewrite Hp, fmap_app. simpl. f_equal. f_equal.
           unfold slice_from. rewrite Hi, <- Hcat, <- Hd.
           rewrite !concat_app. simpl. rewrite app_nil_r, <- !app_assoc.
           by rewrite drop_app_length.
Qed.


Lemma concat_fmap_concat (gs : list (list (list N))) :
  concat (@concat N <$> gs) = concat (concat gs).
Proof.
  induction gs as [|g gs IH]; [done|].
  cbn [fmap list_fmap concat] in *. by rewrite concat_app, IH.
Qed.

(** C7. The pages of [paginate], concatenated in order, are the text, and
    every page is a run of whole lines of the text: no page boundary splits
    a line.  This holds for every [maxPerPage], positive or not. *)
Theorem paginate_reconstitutes (text : list N) (maxPerPage : Z) :
  concat (paginate text maxPerPage) = text
  ∧ ∃ groups : list (list (list N)),
      concat groups = splitlines true text
      ∧ paginate text maxPerPage = @concat N <$> groups.
Proof.
  destruct (paginate_groups text maxPerPage) as (groups & Hlines & Hpages).
  split; [|by exists groups].
  by rewrite Hpages, concat_fmap_concat, Hlines, concat_splitlines.
Qed.

(** ** Mentions *)

#[local] Arguments N.eqb : simpl never.

Lemma take_while_drop (cls : N → bool) (s : list N) :
  take_while cls s ++ drop (length (take_while cls s)) s = s.
Proof.
  induction s as [|c s IH]; [done|]. simpl.
  destruct (cls c); simpl; [by rewrite IH | done].
Qed.

Lemma take_while_all (cls : N → bool) (s : list N) :
  Forall (λ c, cls c = true) (take_while cls s).
Proof.
  induction s as [|c s IH]; simpl; [constructor|].
  destruct (cls c) eqn:Hc; by constructor.
Qed.

Lemma take_while_app_stop (cls : N → bool) (ds : list N) (c : N) (post : list N) :
  Forall (λ c, cls c = true) ds → cls c = false →
  take_while cls (ds ++ c :: post) = ds.
Proof.
  induction 1 as [|d ds Hd _ IH]; intros Hc; simpl.
  - by rewrite Hc.
  - by rewrite Hd, IH.
Qed.

Lemma give_back_none {A} (try : nat → option A) (k : nat) :
  (∀ j, (0 < j ≤ k)%nat → try j = None) → give_back try k = None.
Proof.
  induction k as [|k IH]; intros Hj; [done|]. simpl.
  rewrite Hj by lia. apply IH. intros j ?. apply Hj. lia.
Qed.

Lemma is_digit_not_gt (c : N) : is_digit c = true → (62 =? c)%N = false.
Proof.
  unfold is_digit. rewrite andb_true_iff, !N.leb_le, N.eqb_neq. lia.
Qed.

Lemma is_digit_not_lt (c : N) : is_digit c = true → c ≠ 60%N.
Proof. unfold is_digit. rewrite andb_true_iff, !N.leb_le. lia. Qed.

(** The tail [([0-9]+)>] of the pattern: the group is the longest digit run
    and a [>] must follow it. *)
Lemma re_match_digits_gt (t : list N) :
  re_match [ReGroupPlus is_digit; ReLit 62%N] t =
    let run := take_while is_digit t in
    match run, drop (length run) t with
    | _ :: _, c :: _ => if (62 =? c)%N then Some ([run], S (length run)) else None
    | _, _ => None
    end.
Proof.
  cbn [re_match]. cbv zeta.
  pose proof (take_while_drop is_digit t) as Ht.
  pose proof (take_while_all is_digit t) as Hall.
  destruct (take_while is_digit t) as [|d run'] eqn:Hrun; [done|].
  cbn [length give_back].
  rewrite give_back_none.
  - destruct (drop (S (length run')) t) as [|c post] eqn:Hd; [done|].
    simpl. destruct (62 =? c)%N; [|done]. simpl.
    rewrite <- Ht at 1.
    replace (S (length run')) with (length (d :: run')) by done.
    rewrite take_app_length. do 3 f_equal. simpl. lia.
  - intros j Hj. rewrite <- Ht.
    rewrite drop_app_le by (simpl; lia).
    destruct (lookup_lt_is_Some_2 (d :: run') j) as [e He]; [simpl; lia|].
    rewrite (drop_S _ _ _ He). simpl.
    rewrite is_digit_not_gt; [done|].
    by apply (Forall_lookup_1 _ _ _ _ Hall He).
Qed.

Lemma re_match_lit_cons (c : N) (items : list ReItem) (c' : N) (s' : list N) :
  re_match (ReLit c :: items) (c' :: s') =
    if (c =? c')%N then '(gs, n) ← re_match items s'; Some (gs, S n) else None.
Proof. reflexivity. Qed.

Lemma re_match_opt (c : N) (items : list ReItem) (s : list N) :
  re_match (ReOpt c :: items) s =
    match s with
    | c' :: s' =>
        if (c =? c')%N then
          match re_match items s' with
          | Some (gs, n) => Some (gs, S n)
          | None => re_match items s
          end
        else re_match items s
    | [] => re_match items s
    end.
Proof. by destruct s. Qed.

Lemma re_match_digits_gt_spec (u : list N) (r : list (list N) * nat) :
  re_match [ReGroupPlus is_digit; ReLit 62%N] u = Some r ↔
  ∃ ds post, u = ds ++ [62%N] ++ post ∧ ds ≠ []
    ∧ Forall (λ c, is_digit c = true) ds ∧ r = ([ds], S (length ds)).
Proof.
  rewrite re_match_digits_gt. cbv zeta. split.
  - intros Hu. pose proof (take_while_drop is_digit u) as Hsplit.
    pose proof (take_while_all is_digit u) as Hall.
    destruct (take_while is_digit u) as [|d run]; [done|].
    destruct (drop _ u) as [|c post]; [done|].
    destruct (N.eqb_spec 62 c) as [<-|]; [|done].
    exists (d :: run), post. by simplify_eq.
  - intros (ds & post & -> & Hne & Hds & ->).
    change ([62%N] ++ post) with (62%N :: post).
    rewrite take_while_app_stop by done.
    destruct ds as [|d ds']; [done|].
    by rewrite drop_app_length, N.eqb_refl.
Qed.

(** The matcher accepts exactly the mentions of the specification. *)
Lemma re_match_mention (t : list N) (r : list (list N) * nat) :
  re_match mention_re t = Some r ↔
  ∃ ds n, r = ([ds], n) ∧ mention_prefix t ds n.
Proof.
  unfold mention_re, mention_prefix. split.
  - destruct t as [|c1 [|c2 t2]]; [done| |].
    { rewrite re_match_lit_cons. destruct (60 =? c1)%N; done. }
    rewrite !re_match_lit_cons, re_match_opt.
    destruct (N.eqb_spec 60 c1) as [<-|]; [|done].
    destruct (N.eqb_spec 64 c2) as [<-|]; [|done].
    intros H.
    assert (∃ bang ds post, t2 = bang ++ ds ++ [62%N] ++ post
              ∧ (bang = [] ∨ bang = [33%N]) ∧ ds ≠ []
              ∧ Forall (λ c, is_digit c = true) ds
              ∧ r = ([ds], (3 + length bang + length ds)%nat))
      as (bang & ds & post & -> & Hb & Hne & Hds & ->).
    { destruct t2 as [|c3 t3].
      - destruct (re_match _ []) as [r'|] eqn:Hm; [|done].
        apply re_match_digits_gt_spec in Hm as (ds & post & Hu & _).
        by destruct ds.
      - destruct (N.eqb_spec 33 c3) as [<-|].
        + destruct (re_match _ t3) as [[gs n]|] eqn:Hm.
          * apply re_match_digits_gt_spec in Hm as (ds & post & -> & ? & ? & ?).
            simpl in H. simplify_eq. exists [33%N], ds, post. repeat split; auto.
          * destruct (re_match _ (33%N :: t3)) as [r'|] eqn:Hm'; [|done].
            apply re_match_digits_gt_spec in Hm' as (ds & post & Hu & ? & Hds & ?).
            destruct ds as [|d ds]; [done|]. simpl in Hu. simplify_eq.
            apply Forall_cons in Hds as [Hd _]. by vm_compute in Hd.
        + destruct (re_match _ (c3 :: t3)) as [r'|] eqn:Hm; [|done].
          apply re_match_digits_gt_spec in Hm as (ds & post & -> & ? & ? & ->).
          simpl in H. simplify_eq. exists [], ds, post. repeat split; auto. }
    eexists _, _. split; [done|]. by exists bang, post.
  - intros (ds & n & -> & bang & post & -> & Hb & Hne & Hds & ->).
    assert (re_match [ReGroupPlus is_digit; ReLit 62%N] (ds ++ [62%N] ++ post)
            = Some ([ds], S (length ds))) as Htail.
    { apply re_match_digits_gt_spec. by exists ds, post. }
    change ([60; 64]%N ++ bang ++ ds ++ [62%N] ++ post)
      with (60%N :: 64%N :: (bang ++ ds ++ [62%N] ++ post)).
    rewrite !re_match_lit_cons, !N.eqb_refl, re_match_opt.
    destruct Hb as [->| ->].
    + destruct ds as [|d ds']; [done|]. cbn [app] in *.
      assert ((33 =? d)%N = false) as ->.
      { apply Forall_cons in Hds as [Hd _]. revert Hd. unfold is_digit.
        rewrite andb_true_iff, !N.leb_le, N.eqb_neq. lia. }
      by rewrite Htail.
    + cbn [app] in *. by rewrite N.eqb_refl, Htail.
Qed.

(** Inside a mention no character is [<]: no other mention starts there. *)
Lemma mention_prefix_body (t ds : list N) (n : nat) :
  mention_prefix t ds n →
  ∃ body n', t = 60%N :: body ∧ n = S n'
    ∧ Forall (λ c, c ≠ 60%N) (take n' body).
Proof.
  intros (bang & post & -> & Hb & Hne & Hds & ->).
  exists (64%N :: bang ++ ds ++ [62%N] ++ post), (2 + length bang + length ds)%nat.
  split; [done|]. split; [done|].
  replace (take _ _) with (64%N :: bang ++ ds ++ [62%N]).
  - constructor; [done|]. rewrite !Forall_app. repeat split.
    + destruct Hb as [->| ->]; repeat constructor; done.
    + eapply Forall_impl; [exact Hds|]. intros c. apply is_digit_not_lt.
    + repeat constructor; done.
  - symmetry.
    replace (64%N :: bang ++ ds ++ [62%N] ++ post)
      with ((64%N :: bang ++ ds ++ [62%N]) ++ post)
      by (simpl; by rewrite <- !app_assoc).
    apply take_app_length'. simpl. rewrite !length_app. simpl. lia.
Qed.

Lemma re_match_mention_head (c : N) (rest : list N) :
  c ≠ 60%N → re_match mention_re (c :: rest) = None.
Proof.
  intros Hc. unfold mention_re. rewrite re_match_lit_cons.
  by destruct (N.eqb_spec 60 c).
Qed.

(** Resuming behind a match loses no occurrence: [findall] returns the
    digits of every occurrence, in order. *)
Lemma findall_from_occurrences (s : list N) :
  ∀ (skip i : nat), Forall (λ c, c ≠ 60%N) (take skip s) →
    findall_from mention_re skip s = (mention_occurrences_from i s).*2.
Proof.
  induction s as [|c rest IH]; intros skip i Hskip; [done|].
  cbn [findall_from mention_occurrences_from].
  destruct skip as [|k].
  - destruct (re_match mention_re (c :: rest)) as [[gs n]|] eqn:Hm.
    + apply re_match_mention in Hm as (ds & n0 & [= -> ->] & Hp).
      destruct (mention_prefix_body _ _ _ Hp) as (body & n' & [= -> ->] & -> & Hbody).
      cbn [fmap list_fmap snd]. f_equal. by apply IH.
    + apply IH. by rewrite take_0.
  - simpl in Hskip. apply Forall_cons in Hskip as [Hc Hk].
    rewrite re_match_mention_head by done. by apply IH.
Qed.

Lemma mention_prefix_match (t ds : list N) (n : nat) :
  mention_prefix t ds n ↔ re_match mention_re t = Some ([ds], n).
Proof.
  rewrite re_match_mention. split.
  - intros H. by exists ds, n.
  - by intros (ds' & n' & [= -> ->] & H).
Qed.

Lemma mention_at_drop (s : list N) (i : nat) (ds : list N) :
  mention_at s i ds ↔ (i < length s)%nat ∧ ∃ n, mention_prefix (drop i s) ds n.
Proof.
  unfold mention_at. split.
  - intros (pre & t & n & -> & <- & Hp). split.
    + destruct Hp as (bang & post & -> & _). rewrite length_app. simpl. lia.
    + exists n. by rewrite drop_app_length.
  - intros [Hi [n Hp]]. exists (take i s), (drop i s), n.
    rewrite take_drop, length_take. repeat split; [lia | done].
Qed.

Lemma mention_occurrences_from_elem (s : list N) :
  ∀ (i j : nat) (ds : list N),
    (j, ds) ∈ mention_occurrences_from i s ↔
    ∃ k, j = (i + k)%nat ∧ (k < length s)%nat
         ∧ ∃ n, mention_prefix (drop k s) ds n.
Proof.
  induction s as [|c rest IH]; intros i j ds.
  - simpl. rewrite elem_of_nil. split; [done|]. intros (k & _ & ? & _). lia.
  - assert ((∃ k, j = (i + k)%nat ∧ (k < length (c :: rest))%nat
               ∧ ∃ n, mention_prefix (drop k (c :: rest)) ds n)
            ↔ (j = i ∧ ∃ n, mention_prefix (c :: rest) ds n)
              ∨ (j, ds) ∈ mention_occurrences_from (S i) rest) as ->.
    { rewrite IH. split.
      - intros ([|k] & -> & Hk & Hp).
        + left. split; [lia | done].
        + right. exists k. simpl in *. repeat split; [lia | lia | done].
      - intros [[-> Hp] | (k & -> & Hk & Hp)].
        + exists 0%nat. simpl. repeat split; [lia | lia | done].
        + exists (S k). simpl. repeat split; [lia | lia | done]. }
    cbn [mention_occurrences_from].
    destruct (re_match mention_re (c :: rest)) as [[gs n]|] eqn:Hm.
    + pose proof Hm as Hm'.
      apply re_match_mention in Hm' as (g & n0 & [= -> ->] & Hp).
      rewrite elem_of_cons. split.
      * intros [[= -> ->] | Hin]; [left | right]; eauto.
      * intros [[-> [n' Hp']] | Hin]; [left | by right].
        apply mention_prefix_match in Hp'. congruence.
    + split; [by right|]. intros [[-> [n' Hp']] | Hin]; [|done].
      apply mention_prefix_match in Hp'. congruence.
Qed.

(** The occurrence list holds exactly the occurrences of the specification. *)
Lemma mention_occurrences_spec (s : list N) (i : nat) (ds : list N) :
  (i, ds) ∈ mention_occurrences s ↔ mention_at s i ds.
Proof.
  unfold mention_occurrences.
  rewrite mention_occurrences_from_elem, mention_at_drop. split.
  - by intros (k & -> & Hk & Hp).
  - intros [Hi Hp]. by exists i.
Qed.

Lemma mention_occurrences_from_ge (s : list N) :
  ∀ (i j : nat), j ∈ (mention_occurrences_from i s).*1 → (i ≤ j)%nat.
Proof.
  intros i j. rewrite list_elem_of_fmap. intros ([j' ds] & -> & Hin).
  apply mention_occurrences_from_elem in Hin as (k & -> & _). simpl. lia.
Qed.

(** Each offset is listed once. *)
Lemma mention_occurrences_NoDup (s : list N) :
  NoDup (mention_occurrences s).*1.
Proof.
  unfold mention_occurrences. generalize 0%nat.
  induction s as [|c rest IH]; intros i; [constructor|].
  cbn [mention_occurrences_from].
  destruct (re_match mention_re (c :: rest)) as [[[|g [|]] n]|]; try apply IH.
  cbn [fmap list_fmap fst]. constructor; [|apply IH].
  intros Hin. apply mention_occurrences_from_ge in Hin. lia.
Qed.

Lemma get_user_id_from_mention_occurrences (token : list N) :
  get_user_id_from_mention token =
    match mention_occurrences token with
    | [(_, ds)] => PyStr ds
    | _ => PyInt 0
    end.
Proof.
  unfold get_user_id_from_mention, findall, mention_occurrences. cbv zeta.
  rewrite (findall_from_occurrences token 0 0) by (rewrite take_0; constructor).
  by destruct (mention_occurrences_from 0 token) as [|[i ds] [|[j ds'] rest]].
Qed.

(** C8. [get_user_id_from_mention] returns the digits, as a string, when the
    token holds exactly one occurrence of [<@DIGITS>] or [<@!DIGITS>], and
    the integer 0 when it holds none or more than one. *)
Theorem get_user_id_from_mention_spec (token : list N) :
  (∀ i ds, mention_at token i ds →
           (∀ j ds', mention_at token j ds' → j = i) →
           get_user_id_from_mention token = PyStr ds)
  ∧ ((∀ i ds, ¬ mention_at token i ds) →
     get_user_id_from_mention token = PyInt 0)
  ∧ (∀ i j ds ds', i ≠ j → mention_at token i ds → mention_at token j ds' →
     get_user_id_from_mention token = PyInt 0).
Proof.
  rewrite get_user_id_from_mention_occurrences.
  pose proof (mention_occurrences_spec token) as Hspec.
  pose proof (mention_occurrences_NoDup token) as Hnd.
  destruct (mention_occurrences token) as [|[i1 d1] [|[i2 d2] rest]].
  - split; [|done]. intros i ds Hat _. apply Hspec in Hat.
    by apply elem_of_nil in Hat.
  - split; [|split].
    + intros i ds Hat _. apply Hspec, list_elem_of_singleton in Hat.
      by simplify_eq.
    + intros Hnone. exfalso. apply (Hnone i1 d1), Hspec. left.
    + intros i j ds ds' Hne Hi Hj.
      apply Hspec, list_elem_of_singleton in Hi.
      apply Hspec, list_elem_of_singleton in Hj. by simplify_eq.
  - split; [|split; [|done]].
    + intros i ds _ Huniq. exfalso.
      assert (i1 = i) as -> by (apply (Huniq _ d1), Hspec; left).
      assert (i2 = i) as -> by (apply (Huniq _ d2), Hspec; right; left).
      simpl in Hnd. apply NoDup_cons in Hnd as [Hnd _]. apply Hnd. left.
    + intros Hnone. exfalso. apply (Hnone i1 d1), Hspec. left.
Qed.

Lemma get_user_id_from_mention_spec_witness :
  get_user_id_from_mention (py "<@123456> hi") = PyStr (py "123456")
  ∧ get_user_id_from_mention (py "nobody") = PyInt 0
  ∧ get_user_id_from_mention (py "<@1> <@!2>") = PyInt 0.
Proof.
  split; [|split].
  - apply (proj1 (get_user_id_from_mention_spec (py "<@123456> hi")) 0%nat).
    + exists [], (py "<@123456> hi"), 9%nat. repeat split.
      exists [], (py " hi"). repeat split; auto.
      vm_compute. repeat constructor.
    + intros j ds' Hat. apply mention_occurrences_spec in Hat.
      vm_compute in Hat. apply list_elem_of_singleton in Hat. congruence.
  - apply (proj1 (proj2 (get_user_id_from_mention_spec (py "nobody")))).
    intros i ds Hat. apply mention_occurrences_spec in Hat.
    vm_compute in Hat. by apply elem_of_nil in Hat.
  - apply (proj2 (proj2 (get_user_id_from_mention_spec (py "<@1> <@!2>")))
             0%nat 5%nat (py "1") (py "2")); [lia | |].
    + apply mention_occurrences_spec. vm_compute. left.
    + apply mention_occurrences_spec. vm_compute. right. left.
Defined.

(** ** validate_context *)

Section ValidationProofs.
Context `{Boundary}.

(** The source, with its nested conditionals and early returns, computes
    what the pipeline of the specification computes. *)
Lemma validate_context_pipeline (self : Command) (a : Attributes)
    (client : Client) (message : Message) (postCommand : list (list N)) :
  attributes self = Some a →
  validate_context self client message postCommand
  = validation_pipeline self a message postCommand.
Proof.
  intros Ha.
  unfold validate_context, validation_pipeline, context_checks, attributes_of,
    validate_account.
  rewrite Ha. cbn [app first_failure].
  unfold permission_check, channel_type_check, tournament_account_check,
    tournament_state_check, argument_count_check,
    get_permissions, get_channel_type, get_account, db_get_tournament,
    validate_tournament_state.
  simpl.
  rewrite (Z.leb_antisym (boundary_get_permissions _ _)).
  rewrite (Nat.leb_antisym (length postCommand)).
  destruct (boundary_get_permissions _ _ <? minPermissions a); [done|].
  destruct (length postCommand <? length (reqParams self))%nat;
    simpl; destruct (Z.land _ _ =? 0); try done;
    destruct (challongeAccess a); simpl; try done;
    destruct (boundary_get_account _) as [[acc [e|]]|e]; simpl; try done;
    destruct acc as [acc|], (tournamentState a) as [state|]; simpl; try done;
    destruct (boundary_validate_tournament_state _ _ _) as [[|]|e]; done.
Qed.
End ValidationProofs.


Section PipelineProofs.
Context `{Boundary}.

Lemma first_failure_stops (checks : list (M (option ErrorValue))) :
  stops_at_first_failure checks (first_failure checks).
Proof.
  induction checks as [|[[[e|]|x] tr] checks IH].
  - apply (all_checks_pass []). constructor.
  - simpl. rewrite app_nil_r.
    apply (check_fails _ [] (Ret (Some e), tr) checks e);
      [done | constructor | done].
  - cbn [first_failure]. unfold mbind, M_bind.
    destruct (first_failure checks) as [r tr'].
    inversion IH as [Hall | passed check rest e Hsplit Hpassed Hfail
                    | passed check rest y Hsplit Hpassed Hraise]; subst.
    + apply (all_checks_pass ((Ret None, tr) :: checks)). by constructor.
    + rewrite app_assoc.
      apply (check_fails _ ((Ret None, tr) :: passed) check rest e);
        [done | by constructor | done].
    + rewrite app_assoc.
      apply (check_raises _ ((Ret None, tr) :: passed) check rest y);
        [done | by constructor | done].
  - apply (check_raises _ [] (Raise x, tr) checks x); [done | constructor | done].
Qed.

Lemma stops_well_formed checks res :
  stops_at_first_failure checks res → well_formed_result res.1.
Proof. by destruct 1. Qed.

(** C1. [validate_context] runs the permission, channel-type,
    tournament-account and argument-count checks in this order and stops
    at the first that fails; what it returns is (true, no error) or
    (false, an error), never (false, no error) nor (true, an error).  (A
    collaborator that raises, or a command without attributes, makes it
    raise instead of returning.) *)
Theorem validate_context_order (self : Command) (client : Client)
    (message : Message) (postCommand : list (list N)) :
  well_formed_result (validate_context self client message postCommand).1
  ∧ ∀ a, attributes self = Some a →
      validate_context self client message postCommand
        = validation_pipeline self a message postCommand
      ∧ stops_at_first_failure
          [permission_check a message; channel_type_check a message;
           tournament_account_check a message;
           argument_count_check self postCommand]
          (validate_context self client message postCommand).
Proof.
  assert (∀ a, attributes self = Some a →
      validate_context self client message postCommand
        = validation_pipeline self a message postCommand
      ∧ stops_at_first_failure
          [permission_check a message; channel_type_check a message;
           tournament_account_check a message;
           argument_count_check self postCommand]
          (validate_context self client message postCommand)) as Hpipe.
  { intros a Ha. rewrite (validate_context_pipeline _ a) by done.
    split; [done|]. apply first_failure_stops. }
  split; [|done].
  destruct (attributes self) as [a|] eqn:Ha.
  - destruct (Hpipe a eq_refl) as [_ Hstops].
    by apply stops_well_formed in Hstops.
  - unfold validate_context, attributes_of. by rewrite Ha.
Qed.
End PipelineProofs.

Lemma validate_context_order_witness :
  let message := demo_private_message "seed 1" in
  @validate_context demo_boundary demo_command demo_bot message [py "1"]
  = (Ret (false, Some WrongChannel),
     [EGetPermissions (author message) (channel message);
      EGetChannelType (channel message)]).
Proof.
  intros message.
  destruct (proj2 (@validate_context_order demo_boundary demo_command demo_bot
                     message [py "1"]) _ eq_refl) as [-> _].
  reflexivity.
Defined.


(** ** Keyword arguments *)

Lemma dict_get_set (x k : list N) (v : PyObj) (d : list (list N * PyObj)) :
  dict_get x (dict_set k v d) = if decide (x = k) then Some v else dict_get x d.
Proof.
  induction d as [|[k' v'] d IH]; simpl.
  - by destruct (decide (x = k)).
  - destruct (decide (k = k')) as [->|Hk]; simpl.
    + by destruct (decide (x = k')).
    + destruct (decide (x = k')) as [->|]; [by rewrite decide_False|done].
Qed.

Lemma dict_get_foldl_notin (x : list N) (l d : list (list N * PyObj)) :
  x ∉ l.*1 →
  dict_get x (foldl (λ kw kv, dict_set kv.1 kv.2 kw) d l) = dict_get x d.
Proof.
  revert d. induction l as [|[k v] l IH]; intros d Hx; [done|].
  simpl in *. apply not_elem_of_cons in Hx as [Hk Hx].
  rewrite IH, dict_get_set by done. by rewrite decide_False.
Qed.

Lemma dict_get_foldl_in (x : list N) (v : PyObj) (l d : list (list N * PyObj)) :
  NoDup l.*1 → (x, v) ∈ l →
  dict_get x (foldl (λ kw kv, dict_set kv.1 kv.2 kw) d l) = Some v.
Proof.
  revert d. induction l as [|[k w] l IH]; intros d Hnd Hin.
  - by apply elem_of_nil in Hin.
  - simpl in *. apply NoDup_cons in Hnd as [Hk Hnd].
    apply elem_of_cons in Hin as [[= -> ->]|Hin].
    + rewrite dict_get_foldl_notin, dict_get_set by done. by rewrite decide_True.
    + by apply IH.
Qed.

Lemma fetch_required_zip (postCommand : list (list N)) (xs : list (list N)) :
  ∀ (k : nat) (kw : list (list N * PyObj)),
    (k + length xs ≤ length postCommand)%nat →
    fetch_required postCommand kw (zip (seq k (length xs)) xs)
    = Ret (foldl (λ kw kv, dict_set kv.1 kv.2 kw) kw
                 (zip xs (VStr <$> take (length xs) (drop k postCommand)))).
Proof.
  induction xs as [|x xs IH]; intros k kw Hlen; [done|].
  cbn [length seq zip zip_with fetch_required]. unfold token_at.
  destruct (lookup_lt_is_Some_2 postCommand k) as [tok Htok]; [simpl in Hlen; lia|].
  rewrite Htok, (drop_S _ _ _ Htok). simpl.
  apply IH. simpl in Hlen. lia.
Qed.

Lemma fetch_optional_zip (postCommand : list (list N)) (offset : nat)
    (xs : list (list N)) :
  ∀ (k : nat) (kw : list (list N * PyObj)),
    fetch_optional postCommand offset kw (zip (seq k (length xs)) xs)
    = Ret (foldl (λ kw kv, dict_set kv.1 kv.2 kw) kw
                 (zip xs (VStr <$> drop (k + offset) postCommand))).
Proof.
  induction xs as [|x xs IH]; intros k kw; [done|].
  cbn [length seq zip zip_with fetch_optional].
  destruct (Nat.ltb_spec (k + offset) (length postCommand)) as [Hlt|Hge].
  - unfold token_at.
    destruct (lookup_lt_is_Some_2 postCommand (k + offset)) as [tok Htok]; [done|].
    rewrite Htok, (drop_S _ _ _ Htok). simpl. apply IH.
  - rewrite IH. rewrite !drop_ge by lia. simpl. by rewrite zip_with_nil_r.
Qed.

Lemma _fetch_args_bound (self : Command) (postCommand : list (list N)) :
  (length (reqParams self) ≤ length postCommand)%nat →
  _fetch_args self postCommand
  = Ret (bound_args (reqParams self ++ optParams self) postCommand).
Proof.
  intros Hlen. unfold _fetch_args, enumerate, bound_args.
  rewrite (fetch_required_zip _ _ 0) by (simpl; lia). simpl.
  rewrite fetch_optional_zip. simpl. f_equal.
  rewrite <- (take_drop (length (reqParams self)) postCommand) at 3.
  rewrite fmap_app, zip_with_app, foldl_app; [done|].
  rewrite length_fmap, length_take. lia.
Qed.

Lemma bound_args_take (params tokens : list (list N)) :
  bound_args params tokens = bound_args params (take (length params) tokens).
Proof.
  unfold bound_args. f_equal. rewrite fmap_take.
  by rewrite zip_with_take_r.
Qed.

Lemma fst_zip_take {A B} (l : list A) (k : list B) :
  (zip l k).*1 = take (length k) l.
Proof.
  rewrite <- (zip_with_take_l pair l k) at 1.
  apply fst_zip. rewrite length_take. lia.
Qed.

Lemma bound_args_lookup (params tokens : list (list N)) (i : nat) (x : list N) :
  NoDup params → params !! i = Some x →
  dict_get x (bound_args params tokens) = VStr <$> tokens !! i.
Proof.
  intros Hnd Hx. unfold bound_args.
  destruct (tokens !! i) as [tok|] eqn:Htok; simpl.
  - apply dict_get_foldl_in.
    + rewrite fst_zip_take. by eapply sublist_NoDup; [|apply sublist_take].
    + apply list_elem_of_lookup. exists i.
      by rewrite lookup_zip_with, Hx, list_lookup_fmap, Htok.
  - rewrite dict_get_foldl_notin; [done|].
    rewrite fst_zip_take, length_fmap.
    intros [j Hj]%list_elem_of_lookup.
    apply lookup_take_Some in Hj as [Hj Hlt].
    assert (j = i) as -> by (by eapply NoDup_lookup).
    apply lookup_ge_None in Htok. lia.
Qed.

Section ArgumentProofs.
Context `{Boundary}.

Lemma context_checks_pass (self : Command) (a : Attributes)
    (message : Message) (postCommand : list (list N)) :
  Forall passes (context_checks a message) →
  (validation_pipeline self a message postCommand).1
  = if (length (reqParams self) <=? length postCommand)%nat
    then Ret (true, None)
    else Ret (false, Some (MissingParameters (length (reqParams self))
                                             (length postCommand))).
Proof.
  unfold validation_pipeline, context_checks, passes.
  rewrite !Forall_cons. intros (H1 & H2 & H3 & _).
  cbn [app first_failure].
  destruct (permission_check a message) as [o1 tr1].
  destruct (channel_type_check a message) as [o2 tr2].
  destruct (tournament_account_check a message) as [o3 tr3].
  simpl in *. subst. simpl.
  by destruct (_ <=? _)%nat.
Qed.

(** Checks 1 to 3 never report missing parameters. *)
Lemma context_checks_other (a : Attributes) (message : Message)
    (check : M (option ErrorValue)) (r g : nat) :
  check ∈ context_checks a message →
  check.1 ≠ Ret (Some (MissingParameters r g)).
Proof.
  unfold context_checks, permission_check, channel_type_check,
    tournament_account_check, tournament_state_check, get_permissions,
    get_channel_type, get_account, db_get_tournament,
    validate_tournament_state.
  rewrite !elem_of_cons, elem_of_nil.
  intros [-> | [-> | [-> | []]]]; simpl.
  - by destruct (_ <=? _).
  - by destruct (_ =? _).
  - destruct (challongeAccess a); simpl; [done | |].
    + by destruct (boundary_get_account _) as [[acc [e|]]|e].
    + destruct (boundary_get_account _) as [[acc [e|]]|e]; simpl; try done.
      destruct acc as [acc|], (tournamentState a) as [state|]; simpl; try done.
      by destruct (boundary_validate_tournament_state _ _ _) as [[|]|e].
Qed.

Lemma stops_result_cases (checks : list (M (option ErrorValue)))
    (res : M (bool * option ErrorValue)) :
  stops_at_first_failure checks res →
  (res.1 = Ret (true, None) ∧ Forall passes checks)
  ∨ (∃ check e, check ∈ checks ∧ check.1 = Ret (Some e)
                ∧ res.1 = Ret (false, Some e))
  ∨ (∃ x, res.1 = Raise x).
Proof.
  destruct 1 as [Hall | passed check rest e -> Hpassed Hfail
                | passed check rest x -> Hpassed Hraise]; simpl.
  - by left.
  - right. left. exists check, e. split; [|done].
    apply elem_of_app. right. left.
  - right. right. by exists x.
Qed.

(** C3. With fewer tokens than required parameters validation does not
    pass, and once the permission, channel and account checks have passed
    it fails with [MissingParameters (required, given)].  With at least
    the required count no argument-count failure is reported; extraction
    binds the required then the optional names, in order, to tokens 0, 1,
    2, ..., leaves out the optional names that have no token, and ignores
    the tokens beyond required + optional. *)
Theorem argument_count_and_extraction (self : Command) (a : Attributes)
    (client : Client) (message : Message) (postCommand : list (list N)) :
  attributes self = Some a →
  let required := length (reqParams self) in
  let given := length postCommand in
  let params := reqParams self ++ optParams self in
  let result := (validate_context self client message postCommand).1 in
  ((given < required)%nat →
     result ≠ Ret (true, None)
     ∧ (Forall passes (context_checks a message) →
        result = Ret (false, Some (MissingParameters required given))))
  ∧ ((required ≤ given)%nat →
     (∀ r g, result ≠ Ret (false, Some (MissingParameters r g)))
     ∧ (Forall passes (context_checks a message) → result = Ret (true, None))
     ∧ _fetch_args self postCommand = Ret (bound_args params postCommand)
     ∧ bound_args params postCommand
       = bound_args params (take (length params) postCommand)
     ∧ (NoDup params → ∀ i x, params !! i = Some x →
        dict_get x (bound_args params postCommand)
        = VStr <$> postCommand !! i)).
Proof.
  intros Ha required given params result.
  assert (result = (validation_pipeline self a message postCommand).1) as Hres.
  { unfold result. by rewrite (validate_context_pipeline _ a). }
  pose proof (stops_result_cases _ _
                (first_failure_stops
                   (context_checks a message
                      ++ [argument_count_check self postCommand])))
    as Hcases.
  fold (validation_pipeline self a message postCommand) in Hcases.
  rewrite <- Hres in Hcases.
  assert (Forall passes (context_checks a message) →
          result = if (required <=? given)%nat then Ret (true, None)
                   else Ret (false, Some (MissingParameters required given)))
    as Hpassed.
  { intros Hpass. by rewrite Hres, context_checks_pass. }
  split.
  - intros Hlt. split.
    + destruct Hcases as [[_ Hall] | [(check & e & _ & _ & ->) | [x ->]]];
        [|done..].
      apply Forall_app in Hall as [_ [Hargs _]%Forall_cons_1].
      unfold passes, argument_count_check in Hargs. simpl in Hargs.
      fold required given in Hargs.
      destruct (Nat.leb_spec required given); [lia | done].
    + intros Hpass. rewrite Hpassed by done.
      destruct (Nat.leb_spec required given); [lia | done].
  - intros Hle. split; [|split; [|split; [|split]]].
    + intros r g.
      destruct Hcases as [[-> _] | [(check & e & Hin & Hfail & ->) | [x ->]]];
        [done | | done].
      intros [= ->].
      apply elem_of_app in Hin as [Hin | ->%list_elem_of_singleton].
      * by apply (context_checks_other _ _ _ r g) in Hin.
      * unfold argument_count_check in Hfail. simpl in Hfail.
        fold required given in Hfail.
        destruct (Nat.leb_spec required given); [done | lia].
    + intros Hpass. rewrite Hpassed by done.
      destruct (Nat.leb_spec required given); [done | lia].
    + by apply _fetch_args_bound.
    + apply bound_args_take.
    + intros Hnd i x. by apply bound_args_lookup.
Qed.
End ArgumentProofs.


Lemma argument_count_and_extraction_witness :
  let message := demo_message "!seed" in
  let tokens := [py "1"; py "2"; py "3"; py "4"] in
  (@validate_context demo_boundary demo_command demo_bot message []).1
    = Ret (false, Some (MissingParameters 2 0))
  ∧ (@validate_context demo_boundary demo_command demo_bot message [py "1"]).1
    = Ret (false, Some (MissingParameters 2 1))
  ∧ (@validate_context demo_boundary demo_command demo_bot message tokens).1
    = Ret (true, None)
  ∧ _fetch_args demo_command tokens
    = Ret [(py "a", VStr (py "1")); (py "b", VStr (py "2"));
           (py "c", VStr (py "3"))]
  ∧ dict_get (py "c") (bound_args [py "a"; py "b"; py "c"] [py "1"; py "2"])
    = None.
Proof.
  intros message tokens.
  assert (Forall passes (@context_checks demo_boundary
            (@Attributes_init demo_boundary no_kwargs) message)) as Hpass.
  { repeat constructor. }
  split; [|split; [|split; [|split]]].
  - apply (@argument_count_and_extraction demo_boundary demo_command _
             demo_bot message [] eq_refl); [simpl; lia | exact Hpass].
  - apply (@argument_count_and_extraction demo_boundary demo_command _
             demo_bot message [py "1"] eq_refl); [simpl; lia | exact Hpass].
  - apply (@argument_count_and_extraction demo_boundary demo_command _
             demo_bot message tokens eq_refl); [simpl; lia | exact Hpass].
  - destruct (proj2 (@argument_count_and_extraction demo_boundary demo_command _
             demo_bot message tokens eq_refl)) as (_ & _ & -> & _);
      [simpl; lia | reflexivity].
  - destruct (proj2 (@argument_count_and_extraction demo_boundary demo_command _
             demo_bot message [py "1"; py "2"] eq_refl)) as (_ & _ & _ & _ & Hget);
      [simpl; lia|].
    apply (Hget ltac:(apply (bool_decide_unpack _); vm_compute; exact I) 2%nat (py "c") eq_refl).
Defined.


(** ** Recognition *)

Section RecognitionProofs.
Context `{Boundary}.

Lemma recognition_cases (st : Store) (client : Client) (message : Message) :
  let tokens := split (content message) in
  (is_private (channel message) = true →
     _get_command_and_postcommand st client message
     = (Ret match tokens with
            | [] => None
            | name' :: args => (λ command, (command, args)) <$> find st name'
            end, []))
  ∧ (is_private (channel message) = false →
     _get_command_and_postcommand st client message
     = (Ret match tokens with
            | token0 :: name' :: args =>
                if bool_decide
                     (token0 = trigger (boundary_get_server (server message))
                      ∨ user client ∈ mentions message)
                then (λ command, (command, args)) <$> find st name'
                else None
            | _ => None
            end,
        match tokens with
        | [] => []
        | _ :: _ => [EDbGetServer (server message)]
        end)).
Proof.
  intros tokens. unfold _get_command_and_postcommand. fold tokens.
  split; intros ->.
  - destruct tokens as [|name' args]; [done|]. simpl.
    rewrite drop_0. by destruct (find st name').
  - destruct tokens as [|token0 [|name' args]]; [done..|].
    unfold db_get_server. simpl. rewrite drop_0.
    destruct (decide (token0 = trigger (boundary_get_server (server message))))
      as [->|Hne].
    + rewrite (bool_decide_eq_true_2 (Some _ = Some _)) by done.
      rewrite (bool_decide_eq_true_2 (_ ∨ _)) by (by left). simpl.
      by destruct (find st name').
    + rewrite (bool_decide_eq_false_2 (Some token0 = _)) by congruence.
      simpl. destruct (decide (user client ∈ mentions message)).
      * rewrite (bool_decide_eq_true_2 (_ ∈ _)) by done.
        rewrite (bool_decide_eq_true_2 (_ ∨ _)) by (by right).
        by destruct (find st name').
      * rewrite (bool_decide_eq_false_2 (_ ∈ _)) by done.
        by rewrite (bool_decide_eq_false_2 (_ ∨ _)) by (by intros [|]).
Qed.

(** C2. In a private channel the command name is token 0 and the
    arguments are the tokens from index 1.  In a server channel a message
    of one token or fewer holds no command; otherwise a command is
    recognized exactly when token 0 is the server's trigger or the bot is
    among the mentioned users, its name is token 1 and its arguments
    start at token 2.  A name the registry does not know gives no
    command. *)
Theorem command_recognition (st : Store) (client : Client) (message : Message) :
  let tokens := split (content message) in
  (is_private (channel message) = true →
     _get_command_and_postcommand st client message
     = (Ret match tokens with
            | [] => None
            | name' :: args => (λ command, (command, args)) <$> find st name'
            end, []))
  ∧ (is_private (channel message) = false →
     _get_command_and_postcommand st client message
     = (Ret match tokens with
            | token0 :: name' :: args =>
                if bool_decide
                     (token0 = trigger (boundary_get_server (server message))
                      ∨ user client ∈ mentions message)
                then (λ command, (command, args)) <$> find st name'
                else None
            | _ => None
            end,
        match tokens with
        | [] => []
        | _ :: _ => [EDbGetServer (server message)]
        end)).
Proof. apply recognition_cases. Qed.
End RecognitionProofs.

Lemma command_recognition_witness :
  let st := demo_registry.2 in
  let bar := demo_registry.1.1 in
  @_get_command_and_postcommand demo_boundary st demo_bot
     (demo_private_message "foo 1 2")
  = (Ret (Some (bar, [py "1"; py "2"])), [])
  ∧ @_get_command_and_postcommand demo_boundary st demo_bot
      (demo_message "! foo 1 2")
    = (Ret (Some (bar, [py "1"; py "2"])), [EDbGetServer (Some demo_server)])
  ∧ @_get_command_and_postcommand demo_boundary st demo_bot
      (demo_message "hello foo 1 2")
    = (Ret None, [EDbGetServer (Some demo_server)]).
Proof.
  intros st bar. split; [|split].
  - by rewrite (proj1 (@command_recognition demo_boundary st
                         demo_bot (demo_private_message "foo 1 2")) eq_refl).
  - by rewrite (proj2 (@command_recognition demo_boundary st
                         demo_bot (demo_message "! foo 1 2")) eq_refl).
  - by rewrite (proj2 (@command_recognition demo_boundary st
                         demo_bot (demo_message "hello foo 1 2")) eq_refl).
Defined.


(** ** The registry *)

Lemma validate_name_spec (c : Command) (name' : list N) :
  validate_name c name' = true ↔ name c = name' ∨ name' ∈ aliases c.
Proof.
  unfold validate_name. destruct (decide (name c = name')) as [|Hne].
  - split; [by left | done].
  - rewrite bool_decide_eq_true. split; [by right | by intros [|]].
Qed.

(** A word no command answers to is not found. *)
Lemma find_no_match (st : Store) (name' : list N) :
  (∀ r c, r ∈ _commands (commands st) → heap st !! r = Some c →
          name c ≠ name' ∧ name' ∉ aliases c) →
  find st name' = None.
Proof.
  unfold find. induction (_commands (commands st)) as [|r rs IH]; intros Hno.
  - done.
  - simpl. destruct (heap st !! r) as [c|] eqn:Hr.
    + destruct (validate_name c name') eqn:Hv.
      * apply validate_name_spec in Hv.
        destruct (Hno r c) as [Hn Ha]; [left | done |]. by destruct Hv.
      * apply IH. intros r0 c0 Hin. apply Hno. by right.
    + apply IH. intros r0 c0 Hin. apply Hno. by right.
Qed.

(** C4, as the claim has it: the later command named [foo] would have to
    be found.  It is not: [bar], registered first with the alias [foo], is. *)
Lemma find_earlier_alias_wins :
  let '(bar, foo, st) := demo_registry in
  _commands (commands st) = [bar; foo]
  ∧ (aliases <$> heap st !! bar) = Some [py "foo"]
  ∧ (name <$> heap st !! foo) = Some (py "foo")
  ∧ find st (py "foo") = Some bar
  ∧ find st (py "foo") ≠ Some foo.
Proof. vm_compute. repeat split; discriminate. Qed.

(** C4, amended. [find] returns the first command, in registration order,
    whose name is the word or whose aliases hold it: an alias of a command
    registered earlier wins over the name of a command registered later. *)
Theorem find_first_match (st : Store) (name' : list N)
    (pre post : list positive) (command : positive) (c : Command) :
  _commands (commands st) = pre ++ command :: post →
  heap st !! command = Some c →
  name c = name' ∨ name' ∈ aliases c →
  (∀ r c', r ∈ pre → heap st !! r = Some c' →
           name c' ≠ name' ∧ name' ∉ aliases c') →
  find st name' = Some command.
Proof.
  unfold find. intros -> Hc Hmatch Hpre.
  induction pre as [|r pre IH]; simpl.
  - rewrite Hc. apply validate_name_spec in Hmatch. by rewrite Hmatch.
  - destruct (heap st !! r) as [c'|] eqn:Hr.
    + destruct (validate_name c' name') eqn:Hv.
      * apply validate_name_spec in Hv.
        destruct (Hpre r c') as [Hn Ha]; [left | done |]. by destruct Hv.
      * apply IH. intros r0 c0 Hin. apply Hpre. by right.
    + apply IH. intros r0 c0 Hin. apply Hpre. by right.
Qed.

Lemma find_first_match_witness :
  let '(bar, foo, st) := demo_registry in find st (py "foo") = Some bar.
Proof.
  apply (find_first_match (snd demo_registry) (py "foo") []
           [snd (fst demo_registry)] (fst (fst demo_registry))
           (set_aliases [py "foo"]
              (Command_init (py "bar")
                 (set_doc (Some (py "Bar")) (wrapper (demo_callback "bar" "Bar")))
                 (Some (@Attributes_init demo_boundary no_kwargs))))).
  - reflexivity.
  - reflexivity.
  - right. left.
  - intros r c' Hin. by apply elem_of_nil in Hin.
Defined.

(** ** Builders *)

Lemma builder_alter (f : Field) (self : positive) (args : list (list N))
    (h : gmap positive Command) :
  builder f self args h
  = (self, alter (match f with
                  | FRequired => set_reqParams args
                  | FOptional => set_optParams args
                  | FAliases => set_aliases args
                  | FHelpers => set_helpers args
                  end) self h).
Proof. by destruct f. Qed.

(** C9. Each builder returns the object it was called on and replaces that
    object's list by the arguments of the call: the other fields and the
    other objects stay as they were, and of two calls the last one counts. *)
Theorem builders_replace (f : Field) (h : gmap positive Command)
    (self : positive) (c : Command) (first second : list (list N)) :
  h !! self = Some c →
  ∃ c', builder f self second h = (self, <[self := c']> h)
    ∧ field f c' = second
    ∧ (∀ g, g ≠ f → field g c' = field g c)
    ∧ name c' = name c ∧ cb c' = cb c ∧ attributes c' = attributes c
    ∧ builder f self second (builder f self first h).2
      = builder f self second h.
Proof.
  intros Hc. rewrite !builder_alter. cbn [snd].
  eexists. split; [|split; [|split; [|split; [|split; [|split]]]]].
  - f_equal. apply map_eq. intros r. destruct (decide (r = self)) as [->|Hne].
    + by rewrite lookup_alter_eq, Hc, lookup_insert_eq.
    + by rewrite lookup_alter_ne, lookup_insert_ne.
  - by destruct f.
  - by intros [] ?; destruct f.
  - by destruct f.
  - by destruct f.
  - by destruct f.
  - f_equal. apply map_eq. intros r.
    destruct (decide (r = self)) as [->|Hne].
    + rewrite !lookup_alter_eq, Hc. by destruct f.
    + by rewrite !lookup_alter_ne.
Qed.

Lemma builders_replace_witness :
  let h : gmap positive Command := {[ 1%positive := demo_command ]} in
  (reqParams <$> (add_required_params 1%positive [py "x"]
                    (add_required_params 1%positive [py "y"; py "z"] h).2).2
                 !! 1%positive)
  = Some [py "x"].
Proof.
  intros h.
  destruct (builders_replace FRequired h 1%positive demo_command
              [py "y"; py "z"] [py "x"] eq_refl)
    as (c' & Hret & Hfield & _ & _ & _ & _ & Htwice).
  cbn [builder] in Htwice, Hret. rewrite Htwice, Hret. cbn [snd].
  by rewrite lookup_insert_eq, <- Hfield.
Defined.


(** ** Descriptions *)

Lemma splitlines_from_nonempty (keepends : bool) (s cur : list N) :
  s ≠ [] ∨ cur ≠ [] → splitlines_from keepends cur s ≠ [].
Proof.
  revert cur. induction s as [|c rest IH]; intros cur Hne.
  - destruct Hne as [|Hcur]; [done|]. by destruct cur.
  - cbn [splitlines_from]. destruct (is_linebreak c).
    + destruct (c =? 13)%N; [|done].
      destruct rest as [|c' rest']; [done|]. by destruct (c' =? 10)%N.
    + apply IH. right. by destruct cur.
Qed.

Lemma splitlines_nonempty (keepends : bool) (s : list N) :
  s ≠ [] → ∃ line rest, splitlines keepends s = line :: rest.
Proof.
  intros Hs. unfold splitlines.
  destruct (splitlines_from keepends [] s) as [|line rest] eqn:Hsplit; [|eauto].
  exfalso. eapply splitlines_from_nonempty; [|exact Hsplit]. by left.
Qed.

Lemma join_nil (sep : list N) : join sep [] = [].
Proof. done. Qed.

(** The short description of a command whose callback is documented. *)
Lemma simple_print_documented (c : Command) (d line : list N)
    (rest : list (list N)) :
  cb_doc (cb c) = Some d → splitlines false d = line :: rest →
  simple_print c = Ret (short_description c line).
Proof.
  intros Hdoc Hline. unfold simple_print, short_description.
  rewrite Hdoc, Hline. simpl.
  destruct (reqParams c), (optParams c); done.
Qed.

Lemma simple_print_undocumented (c : Command) :
  cb_doc (cb c) = None →
  simple_print c = Ret (short_description c (py "No description available")).
Proof.
  intros Hdoc. unfold simple_print, short_description. rewrite Hdoc. simpl.
  destruct (reqParams c), (optParams c); done.
Qed.

(** An empty docstring has no first line. *)
Lemma simple_print_empty_doc (c : Command) :
  cb_doc (cb c) = Some [] → simple_print c = Raise IndexError.
Proof. intros Hdoc. unfold simple_print. by rewrite Hdoc. Qed.

Lemma pretty_print_documented (c : Command) (d line : list N)
    (rest : list (list N)) :
  cb_doc (cb c) = Some d → splitlines false d = line :: rest →
  pretty_print c
  = Ret (short_description c line ++ [10%N] ++ py "```" ++ d
           ++ aliases_text c ++ py "```").
Proof.
  intros Hdoc Hline. unfold pretty_print.
  rewrite (simple_print_documented c d line rest) by done.
  simpl. rewrite Hdoc. unfold aliases_text. by destruct (aliases c).
Qed.

Section RegisterProofs.
Context `{Boundary}.

(** [register] copies the docstring of the callback onto the wrapper it
    stores in the command, so the descriptions of a registered command,
    also after its builders have run, show the callback's documentation,
    the first line of it in the short description, and not "No description
    available", whenever the callback has a docstring with something in
    it. *)
Theorem register_keeps_documentation (attributes : AttributesKwargs)
    (func : Callback) (st : Store) :
  ∃ c, heap (register attributes func st).2
         !! (register attributes func st).1 = Some c
    ∧ _commands (commands (register attributes func st).2)
      = _commands (commands st) ++ [(register attributes func st).1]
    ∧ name c = cb_name func
    ∧ cb_doc (cb c) = cb_doc func
    ∧ ∀ d, cb_doc func = Some d → d ≠ [] →
        ∃ line rest, splitlines false d = line :: rest
          ∧ simple_print c = Ret (short_description c line)
          ∧ pretty_print c
            = Ret (short_description c line ++ [10%N] ++ py "```" ++ d
                     ++ aliases_text c ++ py "```")
          ∧ ∀ f args,
              let c' := match f with
                        | FRequired => set_reqParams args c
                        | FOptional => set_optParams args c
                        | FAliases => set_aliases args c
                        | FHelpers => set_helpers args c
                        end in
              simple_print c' = Ret (short_description c' line)
              ∧ pretty_print c'
                = Ret (short_description c' line ++ [10%N] ++ py "```" ++ d
                         ++ aliases_text c' ++ py "```").
Proof.
  unfold register, new_Command, _add. cbn [fst snd heap commands _commands].
  eexists. split; [apply lookup_insert_eq|].
  split; [done|]. split; [done|]. split; [done|].
  intros d Hdoc Hne.
  destruct (splitlines_nonempty false d Hne) as (line & rest & Hline).
  exists line, rest. split; [done|]. split; [|split].
  - by apply (simple_print_documented _ d line rest).
  - by apply (pretty_print_documented _ d line rest).
  - intros f args. cbv zeta. split.
    + apply (simple_print_documented _ d line rest); [|done].
      by destruct f.
    + apply (pretty_print_documented _ d line rest); [|done].
      by destruct f.
Qed.
(** C10. The claim fails at a callback whose docstring is the empty
    string.  [register] copies the docstring, and the command's is the
    empty string, not [None]: no fallback is taken.  [simple_print] then
    asks for the first of no lines and raises [IndexError] where the claim
    has it render the documentation; so does [pretty_print], which calls
    it first, and so do both after any builder. *)
Theorem register_empty_docstring_raises (attributes : AttributesKwargs)
    (func : Callback) (st : Store) :
  cb_doc func = Some [] →
  ∃ c, heap (register attributes func st).2
         !! (register attributes func st).1 = Some c
    ∧ cb_doc (cb c) = Some []
    ∧ simple_print c = Raise IndexError
    ∧ pretty_print c = Raise IndexError
    ∧ ∀ f args,
        let c' := match f with
                  | FRequired => set_reqParams args c
                  | FOptional => set_optParams args c
                  | FAliases => set_aliases args c
                  | FHelpers => set_helpers args c
                  end in
        simple_print c' = Raise IndexError
        ∧ pretty_print c' = Raise IndexError.
Proof.
  intros Hdoc. unfold register, new_Command, _add.
  cbn [fst snd heap commands _commands].
  eexists. split; [apply lookup_insert_eq|].
  split; [exact Hdoc|].
  assert (∀ c, cb_doc (cb c) = Some [] →
               simple_print c = Raise IndexError
               ∧ pretty_print c = Raise IndexError) as Hraise.
  { intros c Hc. unfold pretty_print.
    by rewrite (simple_print_empty_doc c Hc). }
  split; [by apply Hraise|]. split; [by apply Hraise|].
  intros f args. cbv zeta. apply Hraise. by destruct f.
Qed.
End RegisterProofs.

Lemma register_keeps_documentation_witness :
  ∃ c, heap (@register demo_boundary no_kwargs
               (demo_callback "ping" "Answers pong.
Try it.") empty_store).2 !! 1%positive = Some c
    ∧ simple_print c = Ret (py "`ping`  -- *Answers pong.*").
Proof.
  destruct (@register_keeps_documentation demo_boundary no_kwargs
              (demo_callback "ping" "Answers pong.
Try it.") empty_store)
    as (c & Hc & _ & _ & _ & Hdoc).
  exists c. split; [exact Hc|].
  destruct (Hdoc _ eq_refl) as (line & rest & Hline & -> & _); [done|].
  vm_compute in Hline. simplify_eq.
  vm_compute in Hc. injection Hc as <-. reflexivity.
Defined.

Lemma register_empty_docstring_raises_witness :
  ∃ c, heap demo_blank_store.2 !! demo_blank_store.1.1 = Some c
    ∧ cb_doc (cb c) = Some []
    ∧ simple_print c = Raise IndexError
    ∧ pretty_print c = Raise IndexError.
Proof.
  destruct (@register_empty_docstring_raises demo_boundary no_kwargs
              blank_callback empty_store eq_refl)
    as (c & Hc & Hdoc & Hsimple & Hpretty & _).
  exists c. split; [|done].
  change demo_blank_store.1.1
    with (@register demo_boundary no_kwargs blank_callback empty_store).1.
  unfold demo_blank_store, register, new_Command, _add in *.
  cbn [fst snd heap commands _commands] in *.
  rewrite lookup_insert_ne; [exact Hc|]. vm_compute. discriminate.
Defined.


(** ** Handling a message *)

Section HandlingProofs.
Context `{Boundary}.

(** Validation only consults the collaborators. *)
Lemma validate_context_quiet (c : Command) (client : Client)
    (message : Message) (postCommand : list (list N)) :
  Forall quiet (validate_context c client message postCommand).2.
Proof.
  unfold validate_context, attributes_of, validate_account, get_permissions,
    get_channel_type, get_account, db_get_tournament,
    validate_tournament_state.
  destruct (attributes c) as [a|]; simpl; [|by repeat constructor].
  destruct (_ <? _); simpl; [by repeat constructor|].
  destruct (_ =? _); simpl; [by repeat constructor|].
  destruct (challongeAccess a); simpl.
  - destruct (_ <? _)%nat; by repeat constructor.
  - destruct (boundary_get_account _) as [[acc [e|]]|e]; simpl;
      try (by repeat constructor).
    destruct (_ <? _)%nat; by repeat constructor.
  - destruct (boundary_get_account _) as [[acc [e|]]|e]; simpl;
      try (by repeat constructor).
    destruct acc as [acc|], (tournamentState a) as [state|]; simpl;
      try (destruct (_ <? _)%nat; by repeat constructor).
    destruct (boundary_validate_tournament_state _ _ _) as [[|]|e]; simpl;
      try (by repeat constructor).
    destruct (_ <? _)%nat; by repeat constructor.
Qed.

Lemma recognition_quiet (st : Store) (client : Client) (message : Message) :
  Forall quiet (_get_command_and_postcommand st client message).2.
Proof.
  destruct (recognition_cases st client message) as [Hprivate Hserver].
  destruct (is_private (channel message)).
  - rewrite Hprivate by done. constructor.
  - rewrite Hserver by done. simpl.
    destruct (split (content message)); by repeat constructor.
Qed.

Lemma quiet_no_call (tr : list Event) :
  Forall quiet tr → ¬ Exists (λ ev, is_call ev = true) tr.
Proof.
  intros Hq Hex. apply Exists_exists in Hex as (ev & Hin & Hcall).
  rewrite Forall_forall in Hq. destruct (Hq ev Hin) as [_ Hno]. congruence.
Qed.

(** C5. For a recognized command: an exception out of [validate_context]
    is caught and logged with the message content, nothing is sent and
    nothing is executed; a failure value is sent to the channel of the
    message and nothing is executed; the callback runs only after a
    validation that returned validated = true. *)
Theorem try_execute_outcomes (st : Store) (client : Client)
    (message : Message) (command : positive) (c : Command)
    (postCommand : list (list N)) (tr0 : list Event) :
  _get_command_and_postcommand st client message
    = (Ret (Some (command, postCommand)), tr0) →
  heap st !! command = Some c →
  let validation := validate_context c client message postCommand in
  let handled := try_execute st client message in
  (∀ e, validation.1 = Raise e →
     handled = (Ret tt, tr0 ++ validation.2
                          ++ [EPrintException (content message) e])
     ∧ Forall quiet handled.2)
  ∧ (∀ validated err, validation.1 = Ret (validated, Some err) →
     handled = (boundary_send_message (channel message) err,
                tr0 ++ validation.2 ++ [ESendMessage (channel message) err])
     ∧ Forall (λ ev, is_call ev = false) handled.2)
  ∧ (validation.1 = Ret (false, None) →
     handled = (Ret tt, tr0 ++ validation.2))
  ∧ (validation.1 = Ret (true, None) →
     ∃ ran, handled = (ran.1, tr0 ++ validation.2 ++ ran.2)
       ∧ ran = (execute c client message postCommand;;
                loc ← location message;
                emit (EPrintValidated
                        (name c)
                        (if (length postCommand =? 0)%nat then py ""
                         else py " " ++ join (py " ") postCommand)
                        message loc)))
  ∧ (Exists (λ ev, is_call ev = true) handled.2 →
     validation.1 = Ret (true, None)).
Proof.
  intros Hfound Hc validation handled.
  pose proof (validate_context_quiet c client message postCommand) as Hq1.
  pose proof (recognition_quiet st client message) as Hq0.
  rewrite Hfound in Hq0. cbn [snd] in Hq0.
  fold validation in Hq1.
  assert (handled
          = match validation with
            | (Ret (_, Some err), tr1) =>
                (boundary_send_message (channel message) err,
                 tr0 ++ tr1 ++ [ESendMessage (channel message) err])
            | (Ret (true, None), tr1) =>
                let ran := (execute c client message postCommand;;
                            loc ← location message;
                            emit (EPrintValidated
                                    (name c)
                                    (if (length postCommand =? 0)%nat then py ""
                                     else py " " ++ join (py " ") postCommand)
                                    message loc)) in
                (ran.1, tr0 ++ tr1 ++ ran.2)
            | (Ret (false, None), tr1) => (Ret tt, tr0 ++ tr1)
            | (Raise e, tr1) =>
                (Ret tt, tr0 ++ tr1 ++ [EPrintException (content message) e])
            end) as Hhandled.
  { unfold handled, try_execute. rewrite Hfound. cbn [mbind M_bind].
    rewrite Hc. unfold try_except_else. fold validation.
    destruct validation as [[[[|] [err|]]|e] tr1]; cbn [fst snd].
    - unfold send_message. by destruct (boundary_send_message _ _).
    - by destruct (_ ;; _).
    - unfold send_message. by destruct (boundary_send_message _ _).
    - simpl. by rewrite app_nil_r.
    - done. }
  clearbody handled. subst handled.
  destruct validation as [[[validated [err|]]|e] tr1]; cbn [fst snd] in *.
  all: assert (Forall quiet (tr0 ++ tr1)) as Hq by (by apply Forall_app).
  all: assert (∀ ev, is_call ev = false →
               Forall (λ ev, is_call ev = false) (tr0 ++ tr1 ++ [ev]))
         as Hnocall
         by (intros ev Hev; rewrite app_assoc; apply Forall_app;
             split; [|by repeat constructor];
             eapply Forall_impl; [exact Hq|]; by intros ? [_ ?]).
  all: assert (∀ tr, Forall (λ ev, is_call ev = false) tr →
               ¬ Exists (λ ev, is_call ev = true) tr) as Hno
         by (intros tr Hall (ev & Hin & Hcall)%Exists_exists;
             rewrite Forall_forall in Hall; specialize (Hall ev Hin);
             congruence).
  - destruct validated;
      (split; [done|]; split; [|split; [done|split; [done|]]];
       [ intros ? ? [= <- <-]; split; [done|]; by apply Hnocall
       | intros Hex; exfalso; eapply Hno; [|exact Hex]; by apply Hnocall ]).
  - destruct validated.
    + split; [done|]. split; [done|]. split; [done|]. split; [|done].
      intros _. by eexists.
    + split; [done|]. split; [done|]. split; [done|]. split; [done|].
      intros Hex. exfalso. eapply Hno; [|exact Hex]. cbn [snd].
      eapply Forall_impl; [exact Hq|]. by intros ? [_ ?].
  - split; [|split; [done|split; [done|split; [done|]]]].
    + intros ? [= <-]. split; [done|]. cbn [snd]. rewrite app_assoc.
      apply Forall_app. split; [done | by repeat constructor].
    + intros Hex. exfalso. eapply Hno; [|exact Hex]. by apply Hnocall.
Qed.
End HandlingProofs.


Lemma try_execute_outcomes_witness :
  @try_execute demo_boundary demo_registry.2 demo_bot
     (demo_private_message "foo")
  = (Ret tt,
     [EGetPermissions {| user_id := 42 |} demo_dm; EGetChannelType demo_dm;
      ESendMessage demo_dm WrongChannel])
  ∧ @try_execute demo_boundary demo_start_store.2 demo_bot
      (demo_message "! start")
    = (Ret tt,
       [EDbGetServer (Some demo_server);
        EGetPermissions {| user_id := 42 |} demo_channel;
        EGetChannelType demo_channel; EDbGetTournament demo_channel;
        EGetAccount 7; EValidateTournamentState {| account_owner := 7 |} 99 0;
        EPrintException (py "! start") (BoundaryFailure 503)]).
Proof.
  split.
  - destruct (@try_execute_outcomes demo_boundary demo_registry.2 demo_bot
                (demo_private_message "foo") demo_registry.1.1
                (set_aliases [py "foo"]
                   (Command_init (py "bar")
                      (set_doc (Some (py "Bar")) (wrapper (demo_callback "bar" "Bar")))
                      (Some (@Attributes_init demo_boundary no_kwargs))))
                [] [] eq_refl eq_refl) as (_ & Hsend & _).
    destruct (Hsend false WrongChannel eq_refl) as [-> _]. reflexivity.
  - destruct (@try_execute_outcomes demo_boundary demo_start_store.2 demo_bot
                (demo_message "! start") demo_start_store.1
                (Command_init (py "start")
                   (set_doc (Some (py "Starts the tournament"))
                      (wrapper (demo_callback "start" "Starts the tournament")))
                   (Some (@Attributes_init demo_boundary
                            {| kw_minPermissions := None;
                               kw_channelRestrictions := None;
                               kw_challongeAccess := Some RequiredForHost;
                               kw_tournamentState := Some 0%N |})))
                [] [EDbGetServer (Some demo_server)] eq_refl eq_refl)
      as (Hraise & _).
    destruct (Hraise (BoundaryFailure 503) eq_refl) as [-> _]. reflexivity.
Defined.


(** ** Listing the commands of an invoker *)

Section ListingProofs.
Context `{Boundary}.








End ListingProofs.




(** * Further properties *)

(** ** Pagination: the size of the pages *)

Lemma splitlines_from_lines_nonempty (n : nat) :
  ∀ (s cur : list N), (length s ≤ n)%nat →
    Forall (λ l, l ≠ []) (splitlines_from true cur s).
Proof.
  induction n as [|n IH]; intros [|c rest] cur Hlen; simpl in *; try lia.
  - destruct cur; repeat constructor. done.
  - destruct cur; repeat constructor. done.
  - destruct (is_linebreak c).
    + destruct (c =? 13)%N.
      * destruct rest as [|c' rest']; [repeat constructor; by destruct cur|].
        destruct (c' =? 10)%N; constructor;
          try (by destruct cur); apply IH; simpl in *; lia.
      * constructor; [by destruct cur|]. apply IH. lia.
    + apply IH. lia.
Qed.

Lemma splitlines_lines_nonempty (s : list N) :
  Forall (λ l, l ≠ []) (splitlines true s).
Proof. by apply (splitlines_from_lines_nonempty (length s)). Qed.

Lemma paginate_pages_steps (dump : list N) (max_per_page : Z) (n : nat) :
  ∀ (ls done : list (list N)) (post : list N) (st : PaginateState),
    dump = concat (done ++ ls) ++ post →
    (length done + length ls < n)%nat →
    paginate_pages_inv dump max_per_page done st →
    paginate_pages_inv dump max_per_page (done ++ ls)
      (foldl (paginate_step dump max_per_page n) st
             (zip (seq (length done) (length ls)) ls)).
Proof.
  induction ls as [|line ls IH]; intros done post st Hdump Hn Hinv.
  - simpl. by rewrite app_nil_r.
  - simpl. replace (done ++ line :: ls) with ((done ++ [line]) ++ ls)
      by (by rewrite <- app_assoc).
    replace (S (length done)) with (length (done ++ [line]))
      by (rewrite length_app; simpl; lia).
    apply (IH _ post).
    + by rewrite <- app_assoc.
    + rewrite length_app. simpl in *. lia.
    + destruct Hinv as (gs & cur & Hp & Hi & Hc & Hd & Hgs & Hcur & Hfirst & Htail).
      unfold paginate_step.
      destruct (Z.eqb_spec (Z.of_nat (length done)) (Z.of_nat n - 1));
        [simpl in Hn; lia|].
      destruct (Z.leb_spec max_per_page (Z.of_nat (len_count st + length line)))
        as [Hfull|Hroom].
      * exists (gs ++ [cur]), [line]. simpl. split; [|split; [|split; [|split]]].
        -- rewrite Hp, fmap_app. simpl. f_equal. f_equal.
           unfold slice. rewrite Hi, Hc.
           replace (_ + _ - _)%nat with (length (concat cur)) by lia.
           subst dump done. rewrite !concat_app, <- !app_assoc.
           rewrite drop_app_length. by rewrite take_app_length.
        -- rewrite Hi, Hc, !concat_app, length_app. simpl.
           by rewrite app_nil_r.
        -- by rewrite app_nil_r.
        -- rewrite concat_app. simpl. rewrite app_nil_r, <- Hd.
           by rewrite <- app_assoc.
        -- split; [|split; [|split]].
           ++ apply Forall_app. split; [done | by constructor].
           ++ right. simpl. lia.
           ++ by right.
           ++ destruct gs as [|g gs]; [constructor|]. simpl in *.
              apply Forall_app. split; [done|].
              constructor; [|constructor]. by destruct Hfirst.
      * exists gs, (cur ++ [line]). simpl. split; [done|].
        split; [done|]. split; [|split; [|split; [|split; [|split]]]]; try done.
        -- rewrite Hc, concat_app, length_app. simpl. by rewrite app_nil_r.
        -- rewrite <- Hd. by rewrite <- app_assoc.
        -- left. rewrite concat_app, length_app. simpl. rewrite app_nil_r.
           rewrite <- Hc. lia.
        -- right. by destruct cur.
Qed.

(** The pages as groups of lines, with what the loop guarantees of them. *)
Lemma paginate_pages (dump : list N) (max_per_page : Z) :
  ∃ groups : list (list (list N)),
    concat groups = splitlines true dump
    ∧ paginate dump max_per_page = @concat N <$> groups
    ∧ ∀ i g, groups !! i = Some g →
        ((S i < length groups)%nat → fits_page max_per_page g)
        ∧ ((0 < i)%nat → g ≠ []).
Proof.
  unfold paginate. destruct (_ <? _).
  - exists [splitlines true dump]. simpl. rewrite app_nil_r.
    split; [done|]. split; [by rewrite concat_splitlines|].
    intros [|i] g Hg; simpl in *; [|done]. split; lia.
  - pose proof (concat_splitlines dump) as Hcat.
    destruct (splitlines true dump) as [|x l _] using rev_ind.
    + exists []. repeat split; done.
    + rewrite enumerate_snoc, foldl_app. simpl.
      destruct (paginate_pages_steps dump max_per_page (length (l ++ [x]))
                  l [] x {| paginated := []; page_index := 0; len_count := 0 |})
        as (gs & cur & Hp & Hi & Hc & Hd & Hgs & Hcur & Hfirst & Htail).
      * simpl. rewrite <- Hcat. by rewrite concat_app; simpl; rewrite app_nil_r.
      * rewrite length_app. simpl. lia.
      * exists [], []. do 4 (split; [done|]). split; [constructor|].
        split; [right; simpl; lia|]. split; [by left | constructor].
      * simpl in *. unfold enumerate.
        set (st := foldl _ _ _) in *.
        unfold paginate_step.
        rewrite length_app. simpl.
        destruct (Z.eqb_spec (Z.of_nat (length l)) (Z.of_nat (length l + 1) - 1)); [|lia].
        simpl. exists (gs ++ [cur ++ [x]]). split; [|split].
        -- rewrite concat_app. simpl. rewrite app_nil_r, app_assoc. by rewrite Hd.
        -- rewrite Hp, fmap_app. simpl. f_equal. f_equal.
           unfold slice_from. rewrite Hi, <- Hcat, <- Hd.
           rewrite !concat_app. simpl. rewrite app_nil_r, <- !app_assoc.
           by rewrite drop_app_length.
        -- intros i g Hg. rewrite length_app. simpl.
           destruct (decide (i < length gs)%nat) as [Hlt|Hge].
           ++ rewrite lookup_app_l in Hg by done. split.
              ** intros _. by eapply Forall_lookup_1.
              ** intros Hpos. destruct gs as [|g0 gs]; [simpl in Hlt; lia|].
                 destruct i as [|i]; [lia|]. simpl in *.
                 by eapply (Forall_lookup_1 _ _ _ _ Htail).
           ++ rewrite lookup_app_r in Hg by lia.
              destruct (i - length gs)%nat eqn:Hi0; simpl in Hg; [|done].
              injection Hg as <-. split; [lia|]. intros _. by destruct cur.
Qed.

Lemma elem_of_concat_2 {A} (x : A) (l : list A) (ls : list (list A)) :
  x ∈ l → l ∈ ls → x ∈ concat ls.
Proof.
  intros Hx Hl. induction Hl; simpl; apply elem_of_app; auto.
Qed.

Lemma fits_page_cases (max_per_page : Z) (g : list (list N)) :
  fits_page max_per_page g →
  Z.of_nat (length (concat g)) < max_per_page ∨ concat g = [] ∨ concat g ∈ g.
Proof.
  intros [Hshort | Hone]; [by left | right].
  destruct g as [|l [|l' g]]; [by left | right | simpl in Hone; lia].
  simpl. rewrite app_nil_r. left.
Qed.

(** Every page but the last is shorter than the limit, unless it is one
    whole line of the text (which may be longer) or empty. *)
Theorem paginate_page_sizes (text : list N) (max_per_page : Z) (i : nat)
    (page : list N) :
  paginate text max_per_page !! i = Some page →
  (S i < length (paginate text max_per_page))%nat →
  Z.of_nat (length page) < max_per_page
  ∨ page = []
  ∨ page ∈ splitlines true text.
Proof.
  destruct (paginate_pages text max_per_page) as (groups & Hlines & -> & Hg).
  rewrite list_lookup_fmap, length_fmap. intros Hpage Hi.
  destruct (groups !! i) as [g|] eqn:Hgi; [|done]. injection Hpage as <-.
  destruct (Hg i g Hgi) as [Hfits _].
  destruct (fits_page_cases _ _ (Hfits Hi)) as [?|[?|Hin]]; [by left | by right; left |].
  right. right. rewrite <- Hlines.
  eapply elem_of_concat_2; [done|]. by eapply list_elem_of_lookup_2.
Qed.

Lemma paginate_page_sizes_witness :
  Z.of_nat (length (py "ab
cd
")) < 8
  ∨ py "ab
cd
" = []
  ∨ py "ab
cd
" ∈ splitlines true (py "ab
cd
efghijkl
mn").
Proof.
  apply (paginate_page_sizes (py "ab
cd
efghijkl
mn") 8 0); [reflexivity | vm_compute; lia].
Defined.

(** Only the first page can be empty. *)
Theorem paginate_later_pages_nonempty (text : list N) (max_per_page : Z)
    (i : nat) (page : list N) :
  paginate text max_per_page !! S i = Some page → page ≠ [].
Proof.
  destruct (paginate_pages text max_per_page) as (groups & Hlines & -> & Hg).
  rewrite list_lookup_fmap. intros Hpage.
  destruct (groups !! S i) as [g|] eqn:Hgi; [|done]. injection Hpage as <-.
  destruct (Hg (S i) g Hgi) as [_ Hne].
  destruct g as [|l g]; [exfalso; apply Hne; [lia | done]|].
  assert (l ≠ []) as Hl.
  { pose proof (splitlines_lines_nonempty text) as Hall.
    rewrite <- Hlines in Hall. rewrite Forall_forall in Hall. apply Hall.
    eapply (elem_of_concat_2 _ (l :: g)); [left|].
    by eapply list_elem_of_lookup_2. }
  simpl. by destruct l.
Qed.

Lemma paginate_later_pages_nonempty_witness :
  py "efghijkl
mn" ≠ [].
Proof.
  apply (paginate_later_pages_nonempty (py "ab
cd
efghijkl
mn") 8 0). reflexivity.
Defined.

Lemma paginate_step_grows (dump : list N) (max_per_page : Z) (n : nat)
    (items : list (nat * list N)) :
  ∀ st, paginated st
        `prefix_of` paginated (foldl (paginate_step dump max_per_page n) st items).
Proof.
  induction items as [|[i line] items IH]; intros st; [done|].
  simpl. etrans; [|apply IH].
  unfold paginate_step. destruct (_ =? _); [by apply prefix_app_r|].
  destruct (_ <=? _); [by apply prefix_app_r | done].
Qed.

(** A first line as long as the limit, followed by more text, closes an
    empty first page. *)
Theorem paginate_empty_first_page (text : list N) (max_per_page : Z)
    (line1 line2 : list N) (rest : list (list N)) :
  splitlines true text = line1 :: line2 :: rest →
  max_per_page ≤ Z.of_nat (length line1) →
  paginate text max_per_page !! 0%nat = Some [].
Proof.
  intros Hlines Hlong. unfold paginate.
  pose proof (concat_splitlines text) as Hcat. rewrite Hlines in Hcat.
  destruct (Z.ltb_spec (Z.of_nat (length text)) max_per_page) as [Hshort|_].
  { rewrite <- Hcat in Hshort. simpl in Hshort. rewrite length_app in Hshort. lia. }
  rewrite Hlines. remember (line2 :: rest) as lines eqn:Htl.
  cbn [enumerate length seq zip_with foldl].
  match goal with
  | |- paginated (foldl ?f ?st ?items) !! _ = _ =>
      pose proof (paginate_step_grows text max_per_page
                    (S (length lines)) items st) as [more Hmore]
  end.
  rewrite Hmore. unfold paginate_step. cbn [paginated page_index len_count].
  destruct (Z.eqb_spec (Z.of_nat 0) (Z.of_nat (S (length lines)) - 1));
    [subst lines; simpl in *; lia|].
  destruct (Z.leb_spec max_per_page (Z.of_nat (0 + length line1))); [|simpl in *; lia].
  simpl. unfold slice. by rewrite take_0.
Qed.

Lemma paginate_empty_first_page_witness :
  paginate (py "abcdefghij
k") 5 !! 0%nat = Some [].
Proof.
  apply (paginate_empty_first_page _ 5 (py "abcdefghij
") (py "k") []); [reflexivity | vm_compute; discriminate].
Defined.


(** ** Mentions: what comes back *)

(** A returned id is never empty and holds digits only: it is the id of a
    mention that stands in the token. *)
Theorem get_user_id_digits (token ds : list N) :
  get_user_id_from_mention token = PyStr ds →
  ds ≠ [] ∧ Forall (λ c, is_digit c = true) ds ∧ ∃ i, mention_at token i ds.
Proof.
  rewrite get_user_id_from_mention_occurrences.
  pose proof (mention_occurrences_spec token) as Hspec.
  destruct (mention_occurrences token) as [|[i d] [|]]; [done| |done].
  intros [= <-]. assert (mention_at token i d) as Hat by (apply Hspec; left).
  split; [|split; [|by exists i]];
    destruct Hat as (pre & t & n & _ & _ & bang & post & _ & _ & Hne & Hds & _);
    done.
Qed.

Lemma get_user_id_digits_witness :
  py "42" ≠ [] ∧ Forall (λ c, is_digit c = true) (py "42")
  ∧ ∃ i, mention_at (py "hey <@!42>") i (py "42").
Proof. apply (get_user_id_digits (py "hey <@!42>")). reflexivity. Defined.

(** ** Tokens *)

Lemma split_from_tokens (s : list N) :
  ∀ cur, Forall (λ c, is_space c = false) cur →
    Forall (λ tok, tok ≠ [] ∧ Forall (λ c, is_space c = false) tok)
           (split_from cur s).
Proof.
  induction s as [|c rest IH]; intros cur Hcur; simpl.
  - destruct cur as [|c0 cur]; [constructor|].
    constructor; [by split | constructor].
  - destruct (is_space c) eqn:Hc.
    + destruct cur as [|c0 cur]; [by apply IH|].
      constructor; [by split|]. by apply IH.
    + apply IH. apply Forall_app. split; [done|]. by repeat constructor.
Qed.

Lemma split_from_word (word : list N) :
  Forall (λ c, is_space c = false) word →
  ∀ cur rest, split_from cur (word ++ rest) = split_from (cur ++ word) rest.
Proof.
  induction 1 as [|c word Hc _ IH]; intros cur rest; simpl.
  - by rewrite app_nil_r.
  - rewrite Hc, IH. by rewrite <- app_assoc.
Qed.

Lemma py_space : py " " = [32%N].
Proof. reflexivity. Qed.

Lemma join_cons_cons (sep w w' : list N) (words : list (list N)) :
  join sep (w :: w' :: words) = w ++ sep ++ join sep (w' :: words).
Proof. reflexivity. Qed.

(** Joining words with single spaces and splitting again gives the words
    back. *)
Lemma split_join (words : list (list N)) :
  Forall (λ tok, tok ≠ [] ∧ Forall (λ c, is_space c = false) tok) words →
  split (join (py " ") words) = words.
Proof.
  unfold split. rewrite py_space.
  induction 1 as [|w words [Hne Hw] Hwords IH]; [done|].
  destruct words as [|w' words].
  - cbn [join]. rewrite <- (app_nil_r w) at 1.
    rewrite split_from_word by done. cbn [app split_from]. by destruct w.
  - rewrite join_cons_cons, split_from_word by done.
    cbn [app split_from]. change (is_space 32) with true. cbv iota.
    destruct w; [done|]. by rewrite IH.
Qed.

Section TokenProofs.
Context `{Boundary}.

(** The arguments of a recognized command are words: none is empty, none
    holds white space, and the text the [announcement] helper makes of them
    splits back into them. *)
Theorem recognized_arguments_are_words (st : Store) (client : Client)
    (message : Message) (command : positive) (postCommand : list (list N)) :
  (_get_command_and_postcommand st client message).1
    = Ret (Some (command, postCommand)) →
  Forall (λ tok, tok ≠ [] ∧ Forall (λ c, is_space c = false) tok) postCommand
  ∧ split (join (py " ") postCommand) = postCommand.
Proof.
  intros Hfound.
  assert (∃ k, postCommand = drop k (split (content message))) as [k ->].
  { destruct (recognition_cases st client message) as [Hprivate Hserver].
    destruct (is_private (channel message)).
    - rewrite Hprivate in Hfound by done. simpl in Hfound.
      destruct (split (content message)) as [|name' args]; [done|].
      destruct (find st name'); [|done]. exists 1%nat. by simplify_eq.
    - rewrite Hserver in Hfound by done. simpl in Hfound.
      destruct (split (content message)) as [|t0 [|name' args]]; [done..|].
      destruct (bool_decide _); [|done].
      destruct (find st name'); [|done]. exists 2%nat. by simplify_eq. }
  assert (Forall (λ tok, tok ≠ [] ∧ Forall (λ c, is_space c = false) tok)
                 (drop k (split (content message)))) as Hwords.
  { apply Forall_drop, split_from_tokens. constructor. }
  split; [done | by apply split_join].
Qed.
End TokenProofs.

Lemma recognized_arguments_are_words_witness :
  split (join (py " ") [py "1"; py "2"]) = [py "1"; py "2"].
Proof.
  apply (@recognized_arguments_are_words demo_boundary demo_registry.2 demo_bot
           (demo_message "!  foo   1  2 ") demo_registry.1.1).
  reflexivity.
Defined.


(** ** Arguments and validation *)

Lemma fetch_required_short (postCommand : list (list N)) (xs : list (list N)) :
  ∀ (k : nat) (kw : list (list N * PyObj)),
    (k ≤ length postCommand < k + length xs)%nat →
    fetch_required postCommand kw (zip (seq k (length xs)) xs) = Raise IndexError.
Proof.
  induction xs as [|x xs IH]; intros k kw Hlen; [simpl in Hlen; lia|].
  cbn [length seq zip_with fetch_required]. unfold token_at.
  destruct (postCommand !! k) as [tok|] eqn:Htok; [|done].
  simpl. apply IH. apply lookup_lt_Some in Htok. simpl in Hlen. lia.
Qed.

(** [_fetch_args] raises [IndexError] exactly when there are fewer tokens
    than required parameters; it raises nothing else. *)
Theorem fetch_args_index_error (self : Command) (postCommand : list (list N)) :
  (_fetch_args self postCommand = Raise IndexError
   ↔ (length postCommand < length (reqParams self))%nat)
  ∧ ∀ e, _fetch_args self postCommand = Raise e → e = IndexError.
Proof.
  destruct (decide (length postCommand < length (reqParams self))%nat) as [Hlt|Hge].
  - assert (_fetch_args self postCommand = Raise IndexError) as ->.
    { unfold _fetch_args, enumerate.
      by rewrite (fetch_required_short _ _ 0) by (simpl; lia). }
    split; [done|]. by intros e [= <-].
  - rewrite _fetch_args_bound by lia. split; [|done]. split; [done | lia].
Qed.

Section ValidationMore.
Context `{Boundary}.

(** Either checks 1 to 3 all pass, or the validation ends, whatever the
    arguments, in one result that is neither a pass nor missing
    parameters. *)
Lemma context_checks_decide (self : Command) (a : Attributes)
    (message : Message) :
  Forall passes (context_checks a message)
  ∨ ∃ res, (∀ postCommand,
              (validation_pipeline self a message postCommand).1 = res)
           ∧ (∀ e, res ≠ Ret (true, e))
           ∧ ∀ r g, res ≠ Ret (false, Some (MissingParameters r g)).
Proof.
  pose proof (context_checks_other a message) as Hother.
  unfold validation_pipeline, context_checks, passes in *.
  destruct (permission_check a message) as [[[e1|]|x1] tr1] eqn:H1.
  { right. exists (Ret (false, Some e1)). split; [done|]. split; [done|].
    intros r g [= ->]. eapply (Hother _ r g); [left|]. done. }
  2:{ right. exists (Raise x1). split; [done|]. split; done. }
  destruct (channel_type_check a message) as [[[e2|]|x2] tr2] eqn:H2.
  { right. exists (Ret (false, Some e2)). split; [done|]. split; [done|].
    intros r g [= ->]. eapply (Hother _ r g); [right; left|]. done. }
  2:{ right. exists (Raise x2). split; [done|]. split; done. }
  destruct (tournament_account_check a message) as [[[e3|]|x3] tr3] eqn:H3.
  { right. exists (Ret (false, Some e3)). split; [done|]. split; [done|].
    intros r g [= ->]. eapply (Hother _ r g); [right; right; left|]. done. }
  2:{ right. exists (Raise x3). split; [done|]. split; done. }
  left. by repeat constructor.
Qed.

(** When a validation passes. *)
Lemma validate_context_passes (self : Command) (client : Client)
    (message : Message) (postCommand : list (list N)) :
  (validate_context self client message postCommand).1 = Ret (true, None)
  ↔ ∃ a, attributes self = Some a
         ∧ Forall passes (context_checks a message)
         ∧ (length (reqParams self) ≤ length postCommand)%nat.
Proof.
  destruct (attributes self) as [a|] eqn:Ha.
  - rewrite (validate_context_pipeline _ a) by done.
    destruct (context_checks_decide self a message) as [Hpass | (res & Hres & Hno & _)].
    + rewrite context_checks_pass by done.
      destruct (Nat.leb_spec (length (reqParams self)) (length postCommand)).
      * split; [|done]. intros _. by exists a.
      * split; [done|]. intros (a' & _ & _ & ?). lia.
    + rewrite Hres. split; [intros ->; by destruct (Hno None)|].
      intros (a' & [= <-] & Hpass & Hlen).
      pose proof (context_checks_pass self a message postCommand Hpass) as Heq.
      rewrite Hres in Heq.
      destruct (Nat.leb_spec (length (reqParams self)) (length postCommand));
        [by destruct (Hno None) | lia].
  - unfold validate_context, attributes_of. rewrite Ha. simpl.
    split; [done | by intros (a & ? & _)].
Qed.

(** A validation that passed guarantees the extraction of the arguments:
    [execute] then gets as far as the callback's keyword arguments. *)
Theorem validated_arguments_extract (self : Command) (client : Client)
    (message : Message) (postCommand : list (list N)) :
  (validate_context self client message postCommand).1 = Ret (true, None) →
  _fetch_args self postCommand
  = Ret (bound_args (reqParams self ++ optParams self) postCommand).
Proof.
  intros (a & _ & _ & Hlen)%validate_context_passes.
  by apply _fetch_args_bound.
Qed.

(** More tokens never hurt: what passes with some arguments passes, with
    the same calls to the collaborators, with any longer list. *)
Theorem validation_monotone (self : Command) (client : Client)
    (message : Message) (postCommand more : list (list N)) :
  (validate_context self client message postCommand).1 = Ret (true, None) →
  validate_context self client message (postCommand ++ more)
  = validate_context self client message postCommand.
Proof.
  intros Hpass. pose proof Hpass as (a & Ha & _ & Hlen)%validate_context_passes.
  rewrite !(validate_context_pipeline _ a) by done.
  unfold validation_pipeline. do 2 f_equal.
  unfold argument_count_check. rewrite length_app.
  destruct (Nat.leb_spec (length (reqParams self))
                         (length postCommand + length more)); [|lia].
  by destruct (Nat.leb_spec (length (reqParams self)) (length postCommand));
    [|lia].
Qed.

(** The listing shows exactly the commands the invoker can run: a command
    is listed if and only if some list of arguments passes validation. *)
Theorem listed_iff_runnable (client : Client) (message : Message)
    (c : Command) :
  listed client message c = true
  ↔ ∃ postCommand,
      (validate_context c client message postCommand).1 = Ret (true, None).
Proof.
  split.
  - unfold listed. intros Hlisted.
    destruct (attributes c) as [a|] eqn:Ha.
    2:{ unfold validate_context, attributes_of in Hlisted.
        by rewrite Ha in Hlisted. }
    exists (reqParams c). apply validate_context_passes.
    exists a. split; [done|]. split; [|done].
    destruct (context_checks_decide c a message)
      as [Hpass | (res & Hres & Hno & Hmiss)]; [done|].
    rewrite (validate_context_pipeline _ a), Hres in Hlisted by done.
    destruct res as [[[|] [[]|]]|]; try done;
      solve [by edestruct Hno | by edestruct Hmiss].
  - intros [postCommand (a & Ha & Hpass & _)%validate_context_passes].
    unfold listed.
    rewrite (validate_context_pipeline _ a), context_checks_pass by done.
    by destruct (_ <=? _)%nat.
Qed.
End ValidationMore.

Lemma validated_arguments_extract_witness :
  _fetch_args demo_command [py "1"; py "2"]
  = Ret [(py "a", VStr (py "1")); (py "b", VStr (py "2"))].
Proof.
  rewrite (@validated_arguments_extract demo_boundary demo_command demo_bot
             (demo_message "! seed 1 2")); reflexivity.
Defined.

Lemma validation_monotone_witness :
  @validate_context demo_boundary demo_command demo_bot
     (demo_message "! seed 1 2 3 4") ([py "1"; py "2"] ++ [py "3"; py "4"])
  = @validate_context demo_boundary demo_command demo_bot
      (demo_message "! seed 1 2 3 4") [py "1"; py "2"].
Proof.
  apply (@validation_monotone demo_boundary). reflexivity.
Defined.

Lemma fetch_args_index_error_witness :
  _fetch_args demo_command [py "x"] = Raise IndexError.
Proof.
  apply (proj1 (fetch_args_index_error demo_command [py "x"])). simpl. lia.
Defined.

Lemma listed_iff_runnable_witness :
  ∃ postCommand,
    (@validate_context demo_boundary demo_command demo_bot
       (demo_message "! seed") postCommand).1 = Ret (true, None).
Proof.
  apply (@listed_iff_runnable demo_boundary). vm_compute. reflexivity.
Defined.


(** ** Handling a message: the other ways out *)

Section HandlingMore.
Context `{Boundary}.

(** A message that names no command is ignored: no check is run, nothing is
    sent, nothing is printed; in a server channel the trigger is looked
    up, in a private one nothing at all happens. *)
Theorem try_execute_ignores (st : Store) (client : Client) (message : Message) :
  (_get_command_and_postcommand st client message).1 = Ret None →
  try_execute st client message
  = (Ret tt,
     if is_private (channel message) then []
     else match split (content message) with
          | [] => []
          | _ :: _ => [EDbGetServer (server message)]
          end).
Proof.
  intros Hnone. unfold try_execute.
  destruct (recognition_cases st client message) as [Hprivate Hserver].
  destruct (_get_command_and_postcommand st client message) as [found tr] eqn:Hf.
  simpl in Hnone. subst found. simpl. rewrite app_nil_r. f_equal.
  destruct (is_private (channel message)).
  - specialize (Hprivate eq_refl). by simplify_eq.
  - specialize (Hserver eq_refl). by simplify_eq.
Qed.

(** What [execute] raises is not caught: it leaves [try_execute] as it is,
    after the events of the recognition, the validation and the execution;
    no exception line and no log line is printed. *)
Theorem execute_errors_propagate (st : Store) (client : Client)
    (message : Message) (command : positive) (c : Command)
    (postCommand : list (list N)) (tr0 tr1 tr2 : list Event) (e : Exn) :
  _get_command_and_postcommand st client message
    = (Ret (Some (command, postCommand)), tr0) →
  heap st !! command = Some c →
  validate_context c client message postCommand = (Ret (true, None), tr1) →
  execute c client message postCommand = (Raise e, tr2) →
  try_execute st client message = (Raise e, tr0 ++ tr1 ++ tr2).
Proof.
  intros Hfound Hc Hvalid Hexec. unfold try_execute.
  rewrite Hfound. cbn [mbind M_bind]. rewrite Hc.
  unfold try_except_else. rewrite Hvalid, Hexec. done.
Qed.
End HandlingMore.

Lemma try_execute_ignores_witness :
  @try_execute demo_boundary demo_ping_store.2 demo_bot
     (demo_message "good morning")
  = (Ret tt, [EDbGetServer (Some demo_server)]).
Proof.
  by rewrite (@try_execute_ignores demo_boundary).
Defined.

Lemma execute_errors_propagate_witness :
  @try_execute demo_boundary demo_role_store.2 demo_bot
     (demo_private_message "ping")
  = (Raise AttributeError,
     [EGetPermissions {| user_id := 42 |} demo_dm; EGetChannelType demo_dm;
      EDbGetTournament demo_dm]).
Proof.
  apply (@execute_errors_propagate demo_boundary demo_role_store.2 demo_bot
           (demo_private_message "ping") demo_role_store.1
           (set_helpers [py "tournament_role"]
              (Command_init (py "ping")
                 (set_doc (Some (py "Answers pong"))
                    (wrapper (demo_callback "ping" "Answers pong")))
                 (Some (@Attributes_init demo_boundary
                          {| kw_minPermissions := None;
                             kw_channelRestrictions := Some 3;
                             kw_challongeAccess := None;
                             kw_tournamentState := None |}))))
           [] []
           [EGetPermissions {| user_id := 42 |} demo_dm; EGetChannelType demo_dm]
           [EDbGetTournament demo_dm] AttributeError); reflexivity.
Defined.


(** ** Execution: the keyword arguments of the callback *)

Lemma dict_set_keys (k : list N) (v : PyObj) (d : list (list N * PyObj)) :
  (dict_set k v d).*1 = if decide (k ∈ d.*1) then d.*1 else d.*1 ++ [k].
Proof.
  induction d as [|[k' v'] d IH]; [done|]. csimpl.
  destruct (decide (k = k')) as [->|Hne]; csimpl.
  - by rewrite decide_True by left.
  - rewrite IH. destruct (decide (k ∈ d.*1)).
    + by rewrite decide_True by (by right).
    + rewrite decide_False; [done|]. by intros [|]%elem_of_cons.
Qed.

Lemma dict_set_NoDup (k : list N) (v : PyObj) (d : list (list N * PyObj)) :
  NoDup d.*1 → NoDup (dict_set k v d).*1.
Proof.
  intros Hd. rewrite dict_set_keys. destruct (decide (k ∈ d.*1)); [done|].
  apply NoDup_app. split; [done|]. split; [|apply NoDup_singleton].
  intros x Hx ->%list_elem_of_singleton. done.
Qed.

Lemma dict_set_key_elem (k x : list N) (v : PyObj) (d : list (list N * PyObj)) :
  x ∈ (dict_set k v d).*1 ↔ x = k ∨ x ∈ d.*1.
Proof.
  rewrite dict_set_keys. destruct (decide (k ∈ d.*1)).
  - split; [by right | by intros [->|]].
  - rewrite elem_of_app, list_elem_of_singleton. tauto.
Qed.

Lemma dict_get_is_Some (k : list N) (d : list (list N * PyObj)) :
  is_Some (dict_get k d) ↔ k ∈ d.*1.
Proof.
  induction d as [|[k' v'] d IH]; simpl.
  - rewrite elem_of_nil. split; [by intros [? ?] | done].
  - rewrite elem_of_cons. destruct (decide (k = k')) as [->|Hne].
    + split; [by left | by eexists].
    + rewrite IH. split; [by right | by intros [|]].
Qed.

Lemma dict_get_elem (k : list N) (v : PyObj) (d : list (list N * PyObj)) :
  dict_get k d = Some v → (k, v) ∈ d.
Proof.
  induction d as [|[k' v'] d IH]; simpl; [done|].
  destruct (decide (k = k')) as [->|Hne].
  - intros [= ->]. left.
  - intros Hd. right. by apply IH.
Qed.

Lemma foldl_dict_set_NoDup (l d : list (list N * PyObj)) :
  NoDup d.*1 → NoDup (foldl (λ kw kv, dict_set kv.1 kv.2 kw) d l).*1.
Proof.
  revert d. induction l as [|[k v] l IH]; intros d Hd; [done|].
  simpl. by apply IH, dict_set_NoDup.
Qed.

(** [d.update(other)] then lookup: the binding of [other] if it has one,
    that of [d] otherwise. *)
Lemma dict_get_update (k : list N) (d other : list (list N * PyObj)) :
  NoDup other.*1 →
  dict_get k (dict_update d other)
  = match dict_get k other with
    | Some v => Some v
    | None => dict_get k d
    end.
Proof.
  intros Hnd. unfold dict_update.
  destruct (dict_get k other) as [v|] eqn:Hk.
  - apply dict_get_foldl_in; [done|]. by apply dict_get_elem.
  - apply dict_get_foldl_notin. intros Hin%dict_get_is_Some.
    rewrite Hk in Hin. by destruct Hin.
Qed.

(** The names [_fetch_helpers] knows. *)
Lemma bound_args_keys (params tokens : list (list N)) (k : list N) :
  is_Some (dict_get k (bound_args params tokens)) → k ∈ params.
Proof.
  intros Hk. destruct (decide (k ∈ params)) as [|Hno]; [done|]. exfalso.
  unfold bound_args in Hk. rewrite dict_get_foldl_notin in Hk.
  - by destruct Hk.
  - rewrite fst_zip_take. intros Hin. apply Hno.
    by eapply subseteq_take.
Qed.

Section ExecutionProofs.
Context `{Boundary}.

(** One helper binds its own name or nothing. *)
Lemma fetch_helper_binds (self : Command) (message : Message)
    (postCommand : list (list N)) (kw kw' : list (list N * PyObj))
    (x : list N) (tr : list Event) :
  fetch_helper self message postCommand kw x = (Ret kw', tr) →
  kw' = kw ∨ ∃ v, kw' = dict_set x v kw.
Proof.
  unfold fetch_helper, attributes_of, get_account, db_get_tournament,
    db_get_user, server_of.
  repeat case_decide.
  - destruct (attributes self) as [a|]; [|done]. simpl.
    destruct (challongeAccess a); simpl;
      destruct (boundary_get_account _) as [[acc exc]|e]; simpl;
      intros [= <- <-]; right; by eexists.
  - simpl. intros [= <- <-]. right. by eexists.
  - simpl. destruct (server message); simpl; [|done].
    intros [= <- <-]. right. by eexists.
  - simpl. destruct (server message); simpl; [|done].
    intros [= <- <-]. right. by eexists.
  - simpl. intros [= <- <-]. right. by eexists.
  - simpl. intros [= <- <-]. right. by eexists.
  - intros [= <- <-]. by left.
Qed.

Lemma fetch_helpers_loop_keys (self : Command) (message : Message)
    (postCommand : list (list N)) (xs : list (list N)) :
  ∀ (kw kw' : list (list N * PyObj)) (tr : list Event),
    fetch_helpers_loop self message postCommand kw xs = (Ret kw', tr) →
    (NoDup kw.*1 → NoDup kw'.*1)
    ∧ ∀ k, k ∈ kw'.*1 → k ∈ kw.*1 ∨ k ∈ xs.
Proof.
  induction xs as [|x xs IH]; intros kw kw' tr Hloop; simpl in Hloop.
  - injection Hloop as <- <-. split; [done | by left].
  - destruct (fetch_helper self message postCommand kw x) as [[kw1|e] tr1] eqn:Hx;
      [|done].
    simpl in Hloop.
    destruct (fetch_helpers_loop self message postCommand kw1 xs)
      as [[kw2|e] tr2] eqn:Hxs; [|done].
    injection Hloop as <- <-.
    destruct (IH _ _ _ Hxs) as [Hnd Hkeys].
    destruct (fetch_helper_binds _ _ _ _ _ _ _ Hx) as [->|[v ->]].
    + split; [done|]. intros k Hk. destruct (Hkeys k Hk); [by left|].
      right. by right.
    + split; [intros ?; by apply Hnd, dict_set_NoDup|].
      intros k Hk. destruct (Hkeys k Hk) as [[->|?]%dict_set_key_elem|?].
      * right. left.
      * by left.
      * right. by right.
Qed.

(** [execute] calls the callback once the arguments and the helpers are
    gathered.  A helper's value replaces the argument of the same name, and
    every keyword the callback gets is a declared parameter or helper. *)
Theorem execute_keyword_arguments (c : Command) (client : Client)
    (message : Message) (postCommand : list (list N))
    (args helped : list (list N * PyObj)) (tr : list Event) :
  _fetch_args c postCommand = Ret args →
  _fetch_helpers c message postCommand = (Ret helped, tr) →
  ∃ kwargs,
    execute c client message postCommand
    = ((cb_run (cb c) client message kwargs).1,
       tr ++ ECall (cb_name (cb c)) client message kwargs
          :: (cb_run (cb c) client message kwargs).2)
    ∧ (∀ k, dict_get k kwargs
            = match dict_get k helped with
              | Some v => Some v
              | None => dict_get k args
              end)
    ∧ (∀ k, is_Some (dict_get k kwargs) →
            k ∈ reqParams c ++ optParams c ∨ k ∈ helpers c).
Proof.
  intros Hargs Hhelped.
  assert (args = bound_args (reqParams c ++ optParams c) postCommand) as Hbound.
  { destruct (decide (length postCommand < length (reqParams c))%nat) as [Hlt|Hge].
    - unfold _fetch_args, enumerate in Hargs.
      by rewrite (fetch_required_short _ _ 0) in Hargs by (simpl; lia).
    - rewrite _fetch_args_bound in Hargs by lia. by injection Hargs. }
  destruct (fetch_helpers_loop_keys _ _ _ _ _ _ _ Hhelped) as [Hnd Hkeys].
  specialize (Hnd (NoDup_nil_2 : NoDup ([] : list (list N * PyObj)).*1)).
  assert (NoDup args.*1) as Hargs_nd.
  { subst args. unfold bound_args. apply foldl_dict_set_NoDup. constructor. }
  exists (dict_update (dict_update [] args) helped).
  assert (∀ k, dict_get k (dict_update (dict_update [] args) helped)
               = match dict_get k helped with
                 | Some v => Some v
                 | None => dict_get k args
                 end) as Hget.
  { intros k. rewrite !dict_get_update by done. simpl.
    by destruct (dict_get k helped), (dict_get k args). }
  split; [|split; [done|]].
  - unfold execute, lift, call, emit. rewrite Hargs, Hhelped. simpl.
    by destruct (cb_run (cb c) client message _).
  - intros k. rewrite Hget.
    destruct (dict_get k helped) as [v|] eqn:Hk.
    + intros _. right.
      destruct (Hkeys k) as [Hin|Hin]; [|by apply elem_of_nil in Hin|done].
      apply dict_get_is_Some. by rewrite Hk.
    + intros Hin. left. subst args. by apply bound_args_keys in Hin.
Qed.
End ExecutionProofs.

Lemma execute_keyword_arguments_witness :
  ∃ kwargs,
    @execute demo_boundary
      (set_helpers [py "announcement"] demo_command) demo_bot
      (demo_message "! seed 1 2") [py "1"; py "2"]
    = (Ret tt, [ECall (py "seed") demo_bot (demo_message "! seed 1 2") kwargs])
    ∧ dict_get (py "announcement") kwargs = Some (VStr (py "1 2"))
    ∧ dict_get (py "b") kwargs = Some (VStr (py "2")).
Proof.
  destruct (@execute_keyword_arguments demo_boundary
              (set_helpers [py "announcement"] demo_command) demo_bot
              (demo_message "! seed 1 2") [py "1"; py "2"]
              _ _ _ eq_refl eq_refl) as (kwargs & Hrun & Hget & _).
  exists kwargs. split; [exact Hrun|]. by rewrite !Hget.
Defined.


(** ** The profiling wrapper *)

Lemma wrapper_args (func : Callback) (client : Client) (message : Message)
    (kw : list (list N * PyObj)) :
  cb_run (wrapper func) client message kw
  = (server ← (if is_private (channel message) then mret 0%N
               else sv ← server_of message; mret (server_id sv));
     with_block (emit (EProfilerEnter (cb_name func) (profiled_args kw) server))
                (emit EProfilerExit)
                (cb_run func client message kw)).
Proof. reflexivity. Qed.

(** The wrapper leaves the outcome of the callback as it is, an exception
    included, and puts the callback's events between the opening and the
    closing of the profiler scope.  In a server channel without a server
    it raises before the callback is called. *)
Theorem wrapper_brackets_callback (func : Callback) (client : Client)
    (message : Message) (kw : list (list N * PyObj)) :
  (∀ sid,
     (if is_private (channel message) then Some 0%N
      else server_id <$> server message) = Some sid →
     cb_run (wrapper func) client message kw
     = ((cb_run func client message kw).1,
        EProfilerEnter (cb_name func) (profiled_args kw) sid
          :: (cb_run func client message kw).2 ++ [EProfilerExit]))
  ∧ (is_private (channel message) = false → server message = None →
     cb_run (wrapper func) client message kw = (Raise AttributeError, [])).
Proof.
  rewrite wrapper_args. unfold server_of, with_block, emit, raise. split.
  - intros sid Hsid. destruct (is_private (channel message)).
    + injection Hsid as <-. simpl.
      destruct (cb_run func client message kw) as [[[]|e] tr]; simpl;
        by rewrite ?app_nil_r.
    + destruct (server message) as [sv|]; [|done]. injection Hsid as <-. simpl.
      destruct (cb_run func client message kw) as [[[]|e] tr]; simpl;
        by rewrite ?app_nil_r.
  - by intros -> ->.
Qed.

Lemma wrapper_brackets_callback_witness :
  cb_run (wrapper (demo_callback "ping" "Answers pong")) demo_bot
    (demo_message "! ping") [(py "count", VStr (py "3"))]
  = (Ret tt, [EProfilerEnter (py "ping") (py "3") 3; EProfilerExit]).
Proof.
  by rewrite (proj1 (wrapper_brackets_callback
                       (demo_callback "ping" "Answers pong") demo_bot
                       (demo_message "! ping") [(py "count", VStr (py "3"))])
                3%N eq_refl).
Defined.

Lemma profiled_args_key (v : PyObj) (kw : list (list N * PyObj)) :
  profiled_args (dict_set (py "key") v kw) = profiled_args kw.
Proof.
  unfold profiled_args. f_equal.
  induction kw as [|[k' v'] kw IH]; simpl.
  - by destruct v.
  - destruct (decide (py "key" = k')) as [<-|Hne]; simpl.
    + by destruct v, v'.
    + destruct (match v' with VStr _ => _ | _ => None end); [f_equal|];
        exact IH.
Qed.

(** What is passed under the name [key] never reaches the profiler: the
    scope the wrapper opens is the same whatever that value is. *)
Theorem wrapper_hides_key (func : Callback) (client : Client)
    (message : Message) (kw : list (list N * PyObj)) (v : PyObj) :
  head (cb_run (wrapper func) client message (dict_set (py "key") v kw)).2
  = head (cb_run (wrapper func) client message kw).2.
Proof.
  rewrite !wrapper_args, profiled_args_key.
  unfold server_of, with_block, emit, raise.
  destruct (is_private (channel message)); simpl.
  - by destruct (cb_run func _ _ (dict_set _ _ _)) as [[[]|?] ?],
               (cb_run func _ _ kw) as [[[]|?] ?].
  - destruct (server message); simpl; [|done].
    by destruct (cb_run func _ _ (dict_set _ _ _)) as [[[]|?] ?],
               (cb_run func _ _ kw) as [[[]|?] ?].
Qed.

(** ** The registry: registration and lookup *)

Lemma find_in_app (h : gmap positive Command) (l1 l2 : list positive)
    (name' : list N) :
  find_in h (l1 ++ l2) name'
  = match find_in h l1 name' with
    | Some r => Some r
    | None => find_in h l2 name'
    end.
Proof.
  induction l1 as [|r l1 IH]; [done|]. simpl.
  destruct (h !! r) as [c|]; [|done]. by destruct (validate_name c name').
Qed.

Lemma find_in_agree (h h' : gmap positive Command) (l : list positive)
    (name' : list N) :
  (∀ r, r ∈ l → validate_name <$> h' !! r = validate_name <$> h !! r) →
  find_in h' l name' = find_in h l name'.
Proof.
  induction l as [|r l IH]; intros Hagree; [done|]. simpl.
  assert (validate_name <$> h' !! r = validate_name <$> h !! r) as Hr
    by (apply Hagree; left).
  rewrite IH by (intros r' ?; apply Hagree; by right).
  destruct (h' !! r) as [c'|], (h !! r) as [c|]; simpl in Hr; try done.
  injection Hr as Hr. by rewrite Hr.
Qed.

(** What [find] finds answers to the word, and when it finds nothing no
    registered command does. *)
Theorem find_sound_complete (st : Store) (name' : list N) :
  match find st name' with
  | Some r => r ∈ _commands (commands st)
              ∧ ∃ c, heap st !! r = Some c
                     ∧ (name c = name' ∨ name' ∈ aliases c)
  | None => ∀ r c, r ∈ _commands (commands st) → heap st !! r = Some c →
                   name c ≠ name' ∧ name' ∉ aliases c
  end.
Proof.
  unfold find. induction (_commands (commands st)) as [|r rs IH]; simpl.
  - intros r c Hin. by apply elem_of_nil in Hin.
  - destruct (heap st !! r) as [c|] eqn:Hr.
    + destruct (validate_name c name') eqn:Hv.
      * split; [left|]. exists c. split; [done|]. by apply validate_name_spec.
      * destruct (find_in (heap st) rs name') as [r'|].
        -- destruct IH as [Hin Hc]. split; [by right | done].
        -- intros r0 c0 [->|Hin]%elem_of_cons Hc0; [|by eapply IH].
           rewrite Hr in Hc0. injection Hc0 as <-. split.
           ++ intros Hn. assert (validate_name c name' = true) as Ht
                by (apply validate_name_spec; by left). congruence.
           ++ intros Ha. assert (validate_name c name' = true) as Ht
                by (apply validate_name_spec; by right). congruence.
    + destruct (find_in (heap st) rs name') as [r'|].
      * destruct IH as [Hin Hc]. split; [by right | done].
      * intros r0 c0 [->|Hin]%elem_of_cons Hc0; [congruence | by eapply IH].
Qed.

Lemma find_sound_complete_witness :
  demo_registry.1.1 ∈ _commands (commands demo_registry.2)
  ∧ ∃ c, heap demo_registry.2 !! demo_registry.1.1 = Some c
         ∧ (name c = py "foo" ∨ py "foo" ∈ aliases c).
Proof. exact (find_sound_complete demo_registry.2 (py "foo")). Defined.

Section RegistryProofs.
Context `{Boundary}.

(** Registering keeps the registry well formed, makes a new object and
    touches no other; every word that found a command finds the same one,
    and the new command is found under the name of its function when no
    older command answers to it. *)
Theorem register_extends (attributes : AttributesKwargs) (func : Callback)
    (st : Store) :
  registry_live st →
  let r := (register attributes func st).1 in
  let st' := (register attributes func st).2 in
  registry_live st'
  ∧ heap st !! r = None
  ∧ (r ∉ _commands (commands st))
  ∧ (∀ r', r' ≠ r → heap st' !! r' = heap st !! r')
  ∧ ∀ name',
      find st' name'
      = match find st name' with
        | Some r0 => Some r0
        | None => if decide (cb_name func = name') then Some r else None
        end.
Proof.
  intros Hlive r st'.
  assert (heap st !! r = None) as Hfresh.
  { apply not_elem_of_dom. apply is_fresh. }
  assert (r ∉ _commands (commands st)) as Hnew.
  { intros Hin. apply Hlive in Hin. rewrite Hfresh in Hin. by destruct Hin. }
  split; [|split; [done|split; [done|split]]].
  - intros r' Hin. unfold st', register, new_Command, _add in *.
    cbn [snd heap commands _commands] in *.
    apply elem_of_app in Hin as [Hin | ->%list_elem_of_singleton].
    + destruct (decide (r' = fresh (dom (heap st)))) as [->|Hne].
      * rewrite lookup_insert_eq. by eexists.
      * rewrite lookup_insert_ne by done. by apply Hlive.
    + rewrite lookup_insert_eq. by eexists.
  - intros r' Hne. unfold st', register, new_Command, _add.
    cbn [snd heap]. by rewrite lookup_insert_ne.
  - intros name'. unfold find, st', register, new_Command, _add.
    cbn [snd heap commands _commands].
    rewrite find_in_app.
    rewrite (find_in_agree (heap st)).
    2:{ intros r0 Hin. rewrite lookup_insert_ne; [done|].
        intros <-. by apply Hnew. }
    destruct (find_in (heap st) _ name'); [done|].
    simpl. rewrite lookup_insert_eq. unfold validate_name, Command_init. simpl.
    by destruct (decide (cb_name func = name')).
Qed.

End RegistryProofs.

Lemma register_extends_witness :
  find demo_registry.2 (py "bar") = Some demo_registry.1.1
  ∧ find demo_registry.2 (py "zed") = None.
Proof.
  pose (st := {| heap := (add_aliases 1%positive [py "foo"]
                            (heap (@register demo_boundary no_kwargs
                                     (demo_callback "bar" "Bar") empty_store).2)).2;
                 commands := commands (@register demo_boundary no_kwargs
                                         (demo_callback "bar" "Bar") empty_store).2 |}).
  assert (registry_live st) as Hlive.
  { intros r Hin. vm_compute in Hin.
    apply list_elem_of_singleton in Hin as ->. by eexists. }
  destruct (@register_extends demo_boundary no_kwargs
              (demo_callback "foo" "Foo") st Hlive) as (_ & _ & _ & _ & Hfind).
  split.
  - change demo_registry.2
      with (@register demo_boundary no_kwargs (demo_callback "foo" "Foo") st).2.
    by rewrite Hfind.
  - change demo_registry.2
      with (@register demo_boundary no_kwargs (demo_callback "foo" "Foo") st).2.
    by rewrite Hfind.
Defined.

(** ** Builders and lookup *)

(** Builders of different fields commute: the order in which the
    decorators of a command are stacked does not matter. *)
Theorem builders_commute (f g : Field) (self : positive)
    (a b : list (list N)) (h : gmap positive Command) :
  f ≠ g →
  (builder g self b (builder f self a h).2).2
  = (builder f self a (builder g self b h).2).2.
Proof.
  intros Hfg. rewrite !builder_alter. cbn [snd]. apply map_eq. intros r.
  destruct (decide (r = self)) as [->|Hne].
  - rewrite !lookup_alter_eq. destruct (h !! self) as [c|]; [|done]. simpl.
    by destruct f, g.
  - by rewrite !lookup_alter_ne.
Qed.

Lemma builders_commute_witness :
  (add_aliases 1%positive [py "s"]
     (add_helpers 1%positive [py "account"] {[ 1%positive := demo_command ]}).2).2
  = (add_helpers 1%positive [py "account"]
       (add_aliases 1%positive [py "s"] {[ 1%positive := demo_command ]}).2).2.
Proof. apply (builders_commute FHelpers FAliases). discriminate. Defined.

(** Only [add_aliases] changes what [find] returns: parameters and helpers
    play no part in the lookup. *)
Theorem builders_keep_lookup (f : Field) (self : positive)
    (args : list (list N)) (st : Store) (name' : list N) :
  f ≠ FAliases →
  find {| heap := (builder f self args (heap st)).2; commands := commands st |}
       name'
  = find st name'.
Proof.
  intros Hf. unfold find. cbn [heap commands]. rewrite builder_alter. cbn [snd].
  apply find_in_agree. intros r _.
  destruct (decide (r = self)) as [->|Hne].
  - rewrite lookup_alter_eq. destruct (heap st !! self) as [c|]; [|done].
    simpl. f_equal. by destruct f.
  - by rewrite lookup_alter_ne.
Qed.

Lemma builders_keep_lookup_witness :
  find {| heap := (add_required_params demo_registry.1.1 [py "x"]
                     (heap demo_registry.2)).2;
          commands := commands demo_registry.2 |} (py "foo")
  = find demo_registry.2 (py "foo").
Proof. apply (builders_keep_lookup FRequired). discriminate. Defined.

(** An alias given with [add_aliases] finds the command, unless a command
    registered before it answers to the word. *)
Theorem alias_finds_command (st : Store) (self : positive) (c : Command)
    (als : list (list N)) (pre post : list positive) (name' : list N) :
  _commands (commands st) = pre ++ self :: post →
  self ∉ pre →
  heap st !! self = Some c →
  name' ∈ als →
  (∀ r c', r ∈ pre → heap st !! r = Some c' →
           name c' ≠ name' ∧ name' ∉ aliases c') →
  find {| heap := (add_aliases self als (heap st)).2; commands := commands st |}
       name'
  = Some self.
Proof.
  intros Hreg Hself Hc Hals Hpre. unfold find, add_aliases.
  cbn [heap commands snd]. rewrite Hreg, find_in_app.
  rewrite (find_in_agree (heap st))
    by (intros r Hin; rewrite lookup_alter_ne; [done | by intros <-]).
  assert (find_in (heap st) pre name' = None) as ->.
  { clear Hreg Hself. induction pre as [|r pre IH]; [done|]. simpl.
    destruct (heap st !! r) as [c'|] eqn:Hr.
    - destruct (validate_name c' name') eqn:Hv.
      + apply validate_name_spec in Hv.
        destruct (Hpre r c') as [Hn Ha]; [left | done |]. by destruct Hv.
      + apply IH. intros r0 c0 Hin. apply Hpre. by right.
    - apply IH. intros r0 c0 Hin. apply Hpre. by right. }
  simpl. rewrite lookup_alter_eq, Hc. simpl.
  assert (validate_name (set_aliases als c) name' = true) as ->; [|done].
  apply validate_name_spec. by right.
Qed.

Lemma alias_finds_command_witness :
  find {| heap := (add_aliases demo_ping_store.1 [py "p"; py "pong"]
                     (heap demo_ping_store.2)).2;
          commands := commands demo_ping_store.2 |} (py "pong")
  = Some demo_ping_store.1.
Proof.
  apply (alias_finds_command demo_ping_store.2 demo_ping_store.1
           (Command_init (py "ping")
              (set_doc (Some (py "Answers pong"))
                 (wrapper (demo_callback "ping" "Answers pong")))
              (Some (@Attributes_init demo_boundary
                       {| kw_minPermissions := None;
                          kw_channelRestrictions := Some 3;
                          kw_challongeAccess := None;
                          kw_tournamentState := None |})))
           _ [] []).
  - reflexivity.
  - by intros ?%elem_of_nil.
  - reflexivity.
  - right. left.
  - by intros r c' ?%elem_of_nil.
Defined.

(** ** Tables: [print_array] and [dump] *)

Lemma length_ljust (s : list N) (width : Z) (c : N) :
  length (ljust s width c) = Nat.max (length s) (Z.to_nat width).
Proof. unfold ljust. rewrite length_app, length_replicate. lia. Qed.

Lemma ljust_empty (n : nat) (c : N) :
  ljust [] (Z.of_nat n) c = replicate n c.
Proof. unfold ljust. simpl. by rewrite Z.sub_0_r, Nat2Z.id. Qed.

Lemma print_array_rows_kept {A} (func : A → Outcome (option (list N)))
    (iterable : list A) (results : list (option (list N))) :
  Forall2 (λ x s, func x = Ret s) iterable results →
  ∀ arr, print_array_rows func iterable arr
         = Ret (arr ++ filter (λ s, s ≠ []) (omap id results)).
Proof.
  induction 1 as [|x s iterable results Hx _ IH]; intros arr.
  - by rewrite app_nil_r.
  - cbn [print_array_rows]. rewrite Hx. simpl.
    destruct s as [[|c row]|]; simpl; rewrite IH; [done| |done].
    rewrite filter_cons_True by done. by rewrite <- app_assoc.
Qed.

Lemma kept_rows (rows : list (list N)) :
  Forall (λ row, row ≠ []) rows →
  filter (λ s, s ≠ []) (omap id (Some <$> rows)) = rows.
Proof.
  induction 1 as [|row rows Hrow _ IH]; [done|].
  cbn [fmap list_fmap omap list_omap id].
  rewrite filter_cons_True by done. by rewrite IH.
Qed.

Lemma print_array_rows_raise {A} (func : A → Outcome (option (list N)))
    (pre post : list A) (x : A) (e : Exn) :
  Forall (λ y, ∃ s, func y = Ret s) pre → func x = Raise e →
  ∀ arr, print_array_rows func (pre ++ x :: post) arr = Raise e.
Proof.
  intros Hpre Hx. induction Hpre as [|y pre [s Hy] _ IH]; intros arr.
  - simpl. by rewrite Hx.
  - cbn [app print_array_rows]. rewrite Hy. simpl.
    destruct s as [[|c row]|]; apply IH.
Qed.

Lemma print_array_text {A} (title header : list N) (iterable : list A)
    (func : A → Outcome (option (list N)))
    (results : list (option (list N))) :
  Forall2 (λ x s, func x = Ret s) iterable results →
  let lineLen := Z.of_nat (length header) in
  let top := replicate (length header) 61%N in
  let sep := ljust (py "|") (lineLen - 1) 45 ++ py "|" in
  let text := join [10%N]
                ([top; py "| " ++ ljust title (lineLen - 3) 32 ++ py "|";
                  sep; header; sep]
                   ++ filter (λ s, s ≠ []) (omap id results) ++ [top]) in
  print_array title header iterable func = (Ret text, [text]).
Proof.
  intros Hres. unfold print_array. cbv zeta.
  rewrite (print_array_rows_kept func iterable results Hres).
  change (py "") with (@nil N). rewrite ljust_empty.
  change (py "|" ++ py " " ++ ?s) with (py "| " ++ s).
  by rewrite <- app_assoc.
Qed.

(** When [func] returns for every element, [print_array] prints the text
    it returns: the frame, the rows that are neither [None] nor empty, in
    order, and the closing line.  The outer lines have the length of the
    header; the title line and the separators are longer when the header
    is shorter than they need. *)
Theorem print_array_table {A} (title header : list N) (iterable : list A)
    (func : A → Outcome (option (list N)))
    (results : list (option (list N))) :
  Forall2 (λ x s, func x = Ret s) iterable results →
  ∃ title_line sep,
    let top := replicate (length header) 61%N in
    let text := join [10%N]
                  ([top; title_line; sep; header; sep]
                     ++ filter (λ s, s ≠ []) (omap id results) ++ [top]) in
    print_array title header iterable func = (Ret text, [text])
    ∧ length title_line = Nat.max (length header) (length title + 3)
    ∧ length sep = Nat.max (length header) 2.
Proof.
  intros Hres. eexists _, _. split; [|split].
  - exact (print_array_text title header iterable func results Hres).
  - rewrite !length_app, length_ljust. simpl. lia.
  - rewrite length_app, length_ljust. simpl. lia.
Qed.

Lemma print_array_table_witness :
  ∃ title_line sep,
    let top := replicate (length (py "| a |")) 61%N in
    let text := join [10%N]
                  ([top; title_line; sep; py "| a |"; sep]
                     ++ filter (λ s, s ≠ [])
                          (omap id [Some (py "| x |"); None; Some []])
                     ++ [top]) in
    print_array (py "T") (py "| a |") [1%nat; 2%nat; 3%nat]
      (λ n, Ret (if (n =? 2)%nat then None
                 else if (n =? 3)%nat then Some [] else Some (py "| x |")))
    = (Ret text, [text])
    ∧ length title_line = Nat.max (length (py "| a |")) (length (py "T") + 3)
    ∧ length sep = Nat.max (length (py "| a |")) 2.
Proof.
  apply (print_array_table (py "T") (py "| a |") [1%nat; 2%nat; 3%nat]
           (λ n, Ret (if (n =? 2)%nat then None
                      else if (n =? 3)%nat then Some [] else Some (py "| x |")))
           [Some (py "| x |"); None; Some []]).
  repeat constructor.
Defined.

(** An exception of [func] leaves [print_array]: nothing is printed, and
    the rows made before it are lost. *)
Theorem print_array_raises {A} (title header : list N) (pre post : list A)
    (x : A) (func : A → Outcome (option (list N))) (e : Exn) :
  Forall (λ y, ∃ s, func y = Ret s) pre → func x = Raise e →
  print_array title header (pre ++ x :: post) func = (Raise e, []).
Proof.
  intros Hpre Hx. unfold print_array. cbv zeta.
  by rewrite (print_array_rows_raise func pre post x e Hpre Hx).
Qed.

Lemma print_array_raises_witness :
  print_array (py "T") (py "| a |") [1%nat; 2%nat; 3%nat]
    (λ n, if (n =? 2)%nat then Raise AttributeError else Ret (Some (py "| x |")))
  = (Raise AttributeError, []).
Proof.
  apply (print_array_raises (py "T") (py "| a |") [1%nat] [3%nat] 2%nat).
  - repeat constructor. by eexists.
  - reflexivity.
Defined.

Lemma length_commandFormat (f0 f1 f2 f3 f4 f5 f6 : list N) :
  length (commandFormat f0 f1 f2 f3 f4 f5 f6)
  = (15 + Nat.max (length f0) 17 + Nat.max (length f1) 16
     + Nat.max (length f2) 13 + Nat.max (length f3) 11
     + Nat.max (length f4) 20 + Nat.max (length f5) 20
     + Nat.max (length f6) 20)%nat.
Proof.
  unfold commandFormat. rewrite !length_app, !length_ljust.
  change (length (py "| ")) with 2%nat. change (length (py "|")) with 1%nat.
  change (Z.to_nat 17) with 17%nat. change (Z.to_nat 16) with 16%nat.
  change (Z.to_nat 13) with 13%nat. change (Z.to_nat 11) with 11%nat.
  change (Z.to_nat 20) with 20%nat. lia.
Qed.

Lemma length_dump_header : length dump_header = 132%nat.
Proof. reflexivity. Qed.

(** A formatted row is never shorter than the header of the dump, and has
    its length exactly when every field fits its column: a longer field
    is not cut, it pushes the rest of the row to the right. *)
Theorem commandFormat_width (f0 f1 f2 f3 f4 f5 f6 : list N) :
  (length dump_header ≤ length (commandFormat f0 f1 f2 f3 f4 f5 f6))%nat
  ∧ (length (commandFormat f0 f1 f2 f3 f4 f5 f6) = length dump_header
     ↔ (length f0 ≤ 17 ∧ length f1 ≤ 16 ∧ length f2 ≤ 13 ∧ length f3 ≤ 11
        ∧ length f4 ≤ 20 ∧ length f5 ≤ 20 ∧ length f6 ≤ 20)%nat).
Proof. rewrite length_commandFormat, length_dump_header. lia. Qed.

Lemma commandFormat_width_witness :
  length (commandFormat (py "ping") (py "User") (py "Other")
            (py "NotRequired") (py "-") (py "-") (py "count"))
  = length dump_header.
Proof.
  apply (proj2 (commandFormat_width (py "ping") (py "User") (py "Other")
                  (py "NotRequired") (py "-") (py "-") (py "count"))).
  simpl. lia.
Defined.

Section DumpProofs.
Context `{EnumNames}.

Lemma dump_row_attributed (c : Command) :
  is_Some (attributes c) →
  ∃ row, dump_row c = Ret (Some row) ∧ (length dump_header ≤ length row)%nat.
Proof.
  intros [a Ha]. unfold dump_row. rewrite Ha. eexists. split; [done|].
  rewrite length_commandFormat, length_dump_header. lia.
Qed.

(** The dump of a registry whose commands have their attributes returns,
    and prints what it returns: a frame as wide as the header, and one
    row for each registered command, in the order of registration, none
    of them shorter than the header. *)
Theorem dump_table (st : Store) :
  registry_attributed st →
  ∃ title_line sep rows,
    let top := replicate 132 61%N in
    let text := join [10%N]
                  ([top; title_line; sep; dump_header; sep] ++ rows ++ [top]) in
    dump st = (Ret text, [text])
    ∧ length title_line = 132%nat ∧ length sep = 132%nat
    ∧ Forall2 (λ r row, ∃ c, heap st !! r = Some c
                             ∧ dump_row c = Ret (Some row)
                             ∧ (132 ≤ length row)%nat)
              (_commands (commands st)) rows.
Proof.
  intros Hattr. unfold dump.
  assert (∃ rows, Forall2 (λ r row, ∃ c, heap st !! r = Some c
                             ∧ dump_row c = Ret (Some row)
                             ∧ (132 ≤ length row)%nat)
                     (_commands (commands st)) rows) as [rows Hrows].
  { unfold registry_attributed in Hattr. revert Hattr.
    induction (_commands (commands st)) as [|r rs IH]; intros Hattr.
    - by exists [].
    - destruct IH as [rows Hrows]; [intros r' ?; apply Hattr; by right|].
      destruct (Hattr r) as (c & Hc & Ha); [left|].
      destruct (dump_row_attributed c Ha) as (row & Hrow & Hlen).
      rewrite length_dump_header in Hlen.
      exists (row :: rows). constructor; [|done]. by exists c. }
  pose proof (print_array_text (py "Commands Registered") dump_header
                (_commands (commands st))
                (λ r, match heap st !! r with
                      | Some c => dump_row c
                      | None => Ret None
                      end)
                (Some <$> rows)) as Heq.
  cbv zeta in Heq. rewrite Heq; clear Heq.
  2:{ apply Forall2_fmap_r. eapply Forall2_impl; [exact Hrows|].
      intros r row (c & -> & Hrow & _). exact Hrow. }
  eexists _, _, rows. cbv zeta. split; [|split; [|split]].
  - rewrite length_dump_header.
    rewrite kept_rows; [reflexivity|].
    eapply Forall2_Forall_r; [exact Hrows|]. apply Forall_forall.
    intros r _ row (c & _ & _ & Hlen) ->. simpl in Hlen. lia.
  - reflexivity.
  - reflexivity.
  - done.
Qed.

End DumpProofs.

Lemma dump_table_witness :
  ∃ title_line sep rows,
    let top := replicate 132 61%N in
    let text := join [10%N]
                  ([top; title_line; sep; dump_header; sep] ++ rows ++ [top]) in
    @dump demo_names demo_registry.2 = (Ret text, [text])
    ∧ length title_line = 132%nat ∧ length sep = 132%nat
    ∧ Forall2 (λ r row, ∃ c, heap demo_registry.2 !! r = Some c
                             ∧ @dump_row demo_names c = Ret (Some row)
                             ∧ (132 ≤ length row)%nat)
              (_commands (commands demo_registry.2)) rows.
Proof.
  apply (@dump_table demo_names demo_registry.2).
  intros r Hin. vm_compute in Hin.
  apply elem_of_cons in Hin as [->|Hin].
  - eexists. split; [reflexivity|]. by eexists.
  - apply list_elem_of_singleton in Hin as ->.
    eexists. split; [reflexivity|]. by eexists.
Defined.

Section BuiltProofs.
Context `{Boundary}.

(** Every command of a registry made by [register] and the builders is an
    object of the store that has its attributes: [dump] and the checks of
    [validate_context] can read them. *)
Theorem built_attributed (st : Store) :
  built st → registry_attributed st.
Proof.
  induction 1 as [|attrs func st _ IH|f self args st _ IH].
  - intros r Hin. by apply elem_of_nil in Hin.
  - intros r Hin. unfold register, new_Command, _add in *.
    cbn [snd heap commands _commands] in *.
    assert (heap st !! fresh (dom (heap st)) = None) as Hfresh
      by (apply not_elem_of_dom, is_fresh).
    apply elem_of_app in Hin as [Hin | ->%list_elem_of_singleton].
    + destruct (IH r Hin) as (c & Hc & Ha). exists c. split; [|done].
      rewrite lookup_insert_ne; [done|]. intros <-. congruence.
    + rewrite lookup_insert_eq. eexists. split; [done|]. by eexists.
  - intros r Hin. cbn [heap commands] in *. rewrite builder_alter. cbn [snd].
    destruct (IH r Hin) as (c & Hc & Ha).
    destruct (decide (r = self)) as [->|Hne].
    + rewrite lookup_alter_eq, Hc. simpl. eexists. split; [done|].
      by destruct f.
    + rewrite lookup_alter_ne by done. by exists c.
Qed.

End BuiltProofs.

Lemma built_attributed_witness : registry_attributed demo_registry.2.
Proof.
  apply (@built_attributed demo_boundary).
  apply (@built_register demo_boundary no_kwargs (demo_callback "foo" "Foo")).
  apply (@built_builder demo_boundary FAliases 1%positive [py "foo"]
           (@register demo_boundary no_kwargs (demo_callback "bar" "Bar")
              {| heap := ∅; commands := CommandsHandler_init |}).2).
  apply built_register, built_init.
Defined.

